(** * csvcryptography: column-wise AES-CTR transformation of CSV files

  A shallow embedding of [csvcryptography.py] (Python 2).  Python's [str]
  is a byte string, so every string of the script (passwords, fields,
  paths, file contents) is a [list byte].  The script keeps the cipher
  object in the global [enigma]; here it is passed explicitly.  The
  libraries the script imports (hashlib, pycryptopp, csv, os) are not
  part of the repository: the hash, the block function of the cipher and
  the CSV tokenizer are fields of the class [Library], and every theorem
  holds for each of its instances. *)

From Stdlib Require Import Strings.String Strings.Byte.
From stdpp Require Import base option list sorting.

Set Warnings "-register-all".

Abbreviation str := (list byte).

#[global] Instance byte_eq_decision : EqDecision byte := Byte.byte_eq_dec.

(** ** Bytes and their exclusive or *)

Module Bits.

Definition bits8 : Type :=
  (bool * (bool * (bool * (bool * (bool * (bool * (bool * bool)))))))%type.

Definition xor8 (x y : bits8) : bits8 :=
  let '(x0, (x1, (x2, (x3, (x4, (x5, (x6, x7))))))) := x in
  let '(y0, (y1, (y2, (y3, (y4, (y5, (y6, y7))))))) := y in
  (xorb x0 y0, (xorb x1 y1, (xorb x2 y2, (xorb x3 y3,
  (xorb x4 y4, (xorb x5 y5, (xorb x6 y6, xorb x7 y7))))))).

Definition xor_byte (a b : byte) : byte :=
  Byte.of_bits (xor8 (Byte.to_bits a) (Byte.to_bits b)).

End Bits.

Export Bits.

(** ** The imported libraries *)

(** What the script takes from hashlib, pycryptopp (Crypto++) and csv.
  - [md5 s] is [hashlib.md5(s).digest()], always 16 bytes long;
  - [aes_encrypt_block key n] is the AES encryption, under [key], of the
    counter block of value [n] (the counter mode of pycryptopp starts
    from the all-zero block);
  - [csv_reader data] is the iteration of [csv.reader] over a file of
    content [data]: the rows it yields, and whether it then raises
    [csv.Error];
  - [csv_writer rows] is the file content [csv.writer] produces. *)
Class Library := {
  md5 : str → str;
  md5_digest_size : ∀ s, length (md5 s) = 16;
  aes_encrypt_block : str → nat → str;
  csv_reader : str → list (list str) * bool;
  csv_writer : list (list str) → str;
}.

(** The exceptions that can leave the code modelled here.  [csv.Error],
    which the script catches, is the flag of [csv_reader]. *)
Inductive exn :=
  | IndexError      (* list index out of range *)
  | ValueError      (* int() on a string that is no number *)
  | IOError         (* open() failed *)
  | AesError.       (* pycryptopp.cipher.aes.Error *)

#[global] Instance exn_eq_decision : EqDecision exn.
Proof. solve_decision. Defined.

(** ** The cipher object *)

(** A [pycryptopp.cipher.aes.AES] object: its key and the number of
  keystream bytes it has consumed. *)
Record AES := mkAES { aes_key : str; aes_pos : nat }.

Section Cipher.
Context `{Library}.

(** Byte [i] of the keystream of [key]: blocks are 16 bytes long. *)
Definition keystream_byte (key : str) (i : nat) : byte :=
  default "000"%byte (aes_encrypt_block key (i / 16) !! (i mod 16)).

Definition keystream (key : str) (start len : nat) : str :=
  keystream_byte key <$> seq start len.

(** Modelled from the spec: [AES.process] is a method of pycryptopp's
    cipher object, whose code is not in the repository.  It consumes the
    next [len(string)] keystream bytes, combines them with the input byte
    for byte by exclusive or, and advances the position so that the next
    call continues the stream. *)
Definition AES_process (e : AES) (string : str) : str * AES :=
  (zip_with xor_byte string (keystream (aes_key e) (aes_pos e) (length string)),
   mkAES (aes_key e) (aes_pos e + length string)).

(** The constructor [AES(key=...)]: Crypto++ accepts keys of 16, 24 and
    32 bytes and the stream starts at position zero. *)
Definition AES_new (key : str) : exn + AES :=
  if bool_decide (length key ∈ [16; 24; 32])
  then inr (mkAES key 0) else inl AesError.

(** [crypto(string)], on the cipher object held in the global [enigma]. *)
Definition crypto (string : str) (enigma : AES) : str * AES :=
  AES_process enigma string.

(** [crypto_init(password)]. *)
Definition crypto_init (password : str) : exn + AES :=
  let hashed_key := md5 password in
  AES_new hashed_key.

End Cipher.

(** ** The column option (lines 93-100 and 134-137) *)

(** [s.split(sep)] for a separator of one character. *)
Fixpoint split (sep : byte) (s : str) : list str :=
  match s with
  | [] => [[]]
  | c :: rest =>
      if decide (c = sep) then [] :: split sep rest
      else match split sep rest with
           | [] => [[c]]
           | token :: tokens => (c :: token) :: tokens
           end
  end.

Definition is_digit (c : byte) : bool :=
  bool_decide (48 ≤ Byte.to_nat c ≤ 57).

(** [s.isdigit()]: at least one character, and digits only. *)
Definition isdigit (s : str) : bool :=
  match s with
  | [] => false
  | _ => forallb is_digit s
  end.

(** [check_columns]: the option parser leaves the run, before any file is
    read, unless every token of the value is a number. *)
Definition check_columns (value : str) : bool :=
  forallb isdigit (split ","%byte value).

(** [int(s)] on a string of decimal digits; any other string of the kind
    [check_columns] lets through does not exist, and [ValueError] stands
    for what [int] would do with one. *)
Definition int (s : str) : exn + nat :=
  if isdigit s
  then inr (foldl (λ acc c, 10 * acc + (Byte.to_nat c - 48)) 0 s)
  else inl ValueError.

(** The loop of lines 136-137 over the tokens. *)
Fixpoint append_columns (tokens : list str) (target_columns : list nat)
  : exn + list nat :=
  match tokens with
  | [] => inr target_columns
  | col_number :: rest =>
      match int col_number with
      | inl e => inl e
      | inr n => append_columns rest (target_columns ++ [n])
      end
  end.

(** Python's truth value of [options.columns] and [options.password]:
    [None] and the empty string are false. *)
Definition truthy (o : option str) : bool :=
  match o with
  | Some (_ :: _) => true
  | _ => false
  end.

(** The global [target_columns] (lines 134-137). *)
Definition target_columns_of (columns : option str) : exn + list nat :=
  match columns with
  | Some value =>
      if truthy columns then append_columns (split ","%byte value) [] else inr []
  | None => inr []
  end.

(** *** Writing a column option

    What a user types for [-c]: numbers in decimal, commas in between
    (the [0,1,3,6,9] of the help text). *)

Definition digit (d : nat) : byte :=
  default "0"%byte (Byte.of_nat (48 + d)).

(** The decimal digits of [n] in front of [acc]; [fuel] bounds the number
    of digits. *)
Fixpoint decimal_digits (fuel n : nat) (acc : str) : str :=
  match fuel with
  | 0 => acc
  | S fuel' =>
      if decide (n < 10) then digit n :: acc
      else decimal_digits fuel' (n / 10) (digit (n mod 10) :: acc)
  end.

(** [str(n)]. *)
Definition decimal (n : nat) : str := decimal_digits (S n) n [].

(** [','.join(tokens)]. *)
Fixpoint comma_joined (tokens : list str) : str :=
  match tokens with
  | [] => []
  | [token] => token
  | token :: rest => token ++ ","%byte :: comma_joined rest
  end.

(** ** Rows (lines 180-187) *)

(** [sorted(target_columns)]. *)
Definition sorted (target_columns : list nat) : list nat :=
  merge_sort (≤) target_columns.

Section Rows.
Context `{Library}.

(** [map(crypto, line)]: the fields pass through the cipher from left to
    right. *)
Fixpoint map_crypto (line : list str) (enigma : AES) : list str * AES :=
  match line with
  | [] => ([], enigma)
  | field :: rest =>
      let (c, enigma1) := crypto field enigma in
      let (cs, enigma2) := map_crypto rest enigma1 in
      (c :: cs, enigma2)
  end.

(** [for column in ...: newline[column] = crypto(line[column])].  The
    field is read from [line]; an index past its end raises [IndexError].
    [newline] is a copy of [line], so the assignment is in range whenever
    the read is. *)
Fixpoint columns_loop (line : list str) (columns : list nat)
    (newline : list str) (enigma : AES) : exn + (list str * AES) :=
  match columns with
  | [] => inr (newline, enigma)
  | column :: rest =>
      match line !! column with
      | None => inl IndexError
      | Some field =>
          let (c, enigma1) := crypto field enigma in
          columns_loop line rest (<[column := c]> newline) enigma1
      end
  end.

(** The body of the loop over the rows, lines 181-186; [by_column] is the
    truth value of [options.columns]. *)
Definition transform_line (by_column : bool) (target_columns : list nat)
    (line : list str) (enigma : AES) : exn + (list str * AES) :=
  if negb by_column then inr (map_crypto line enigma)
  else columns_loop line (sorted target_columns) line enigma.

(** The loop over the rows the reader yields, lines 180-187. *)
Fixpoint lines_loop (by_column : bool) (target_columns : list nat)
    (lines : list (list str)) (csv_contents : list (list str))
    (enigma : AES) : exn + (list (list str) * AES) :=
  match lines with
  | [] => inr (csv_contents, enigma)
  | line :: rest =>
      match transform_line by_column target_columns line enigma with
      | inl e => inl e
      | inr (newline, enigma1) =>
          lines_loop by_column target_columns rest
            (csv_contents ++ [newline]) enigma1
      end
  end.

(** What lines 174-187 leave in [csv_contents] for a file whose rows are
    [lines]: a cipher object made from the password, then the loop. *)
Definition file_transform (pw : str) (by_column : bool)
    (target_columns : list nat) (lines : list (list str))
  : exn + list (list str) :=
  match crypto_init pw with
  | inl e => inl e
  | inr fresh =>
      match lines_loop by_column target_columns lines [] fresh with
      | inl e => inl e
      | inr (csv_contents, _) => inr csv_contents
      end
  end.

End Rows.

(** ** The file system and the crawler (lines 154-169) *)

(** What the script asks of the operating system: [os.path.exists],
    [os.path.abspath], [os.path.isdir], [os.listdir], and the content of
    the file [open] finds at a path ([None]: it cannot be opened). *)
Record filesystem := mkFS {
  path_exists : str → bool;
  abspath : str → str;
  isdir : str → bool;
  listdir : str → list str;
  contents : str → option str;
}.

(** [path + '/' + p]. *)
Definition join (path p : str) : str := path ++ "/"%byte :: p.

(** The loop of [crawler] over [paths]; [crawl] is the recursive call. *)
Fixpoint crawler_loop (crawl : list str → option (list str))
    (fs : filesystem) (paths : list str) (unrolled_paths : list str)
  : option (list str) :=
  match paths with
  | [] => Some unrolled_paths
  | path :: rest =>
      if isdir fs path then
        let subpaths := join path <$> listdir fs path in
        match crawl subpaths with
        | None => None
        | Some ps => crawler_loop crawl fs rest (unrolled_paths ++ ps)
        end
      else crawler_loop crawl fs rest (unrolled_paths ++ [path])
  end.

(** [crawler(paths)].  The recursion of the script is not structural (a
    directory that contains itself through a link is expanded for ever):
    [fuel] bounds its depth, and [None] is a crawl that needs more. *)
Fixpoint crawler (fuel : nat) (fs : filesystem) (paths : list str)
  : option (list str) :=
  match fuel with
  | 0 => None
  | S fuel' => crawler_loop (crawler fuel' fs) fs paths []
  end.

(** ** The main loop (lines 172-210) *)

(** The attributes of [options] the script reads after [parse_args].
    [columns] is [options.columns] as lines 135 and 181 find it.  (The
    option [-c] is declared with the action [callback]: optparse passes
    its value to [check_columns] and stores nothing by itself, so with
    the parser of lines 102-107 the attribute keeps its default [None].
    Nothing below depends on how the attribute came to its value: the
    properties are proved for every value of it.) *)
Record options := mkOptions {
  help : bool;
  columns : option str;
  password : option str;
  not_really : bool;
  verbose : bool;
}.

(** What the script prints. *)
Inductive output :=
  | LongHelp
  | ProcessingFile (target : str)
  | NotValidCsv (target : str)
  | PrintedLine (line : list str)
  | BlankLine
  | NothingDone
  | FilesAltered (n : nat).

Inductive mode := rb | wb.

#[global] Instance mode_eq_decision : EqDecision mode.
Proof. solve_decision. Defined.

(** The state of a run: the file system, the global [enigma] (unbound
    before the first target), the counter [processed_files], what was
    printed and the calls of [open] so far. *)
Record state := mkState {
  st_fs : filesystem;
  enigma : option AES;
  processed_files : nat;
  stdout : list output;
  opened : list (str * mode);
}.

Inductive exit_status :=
  | ExitOk
  | NoPathsGiven
  | TargetDoesNotExist (path : str)
  | BadColumnNumber.

(** How a run ends: [sys.exit], or an exception nothing catches. *)
Inductive outcome :=
  | Exit (status : exit_status) (st : state)
  | Uncaught (e : exn) (st : state).

Definition print (o : list output) (st : state) : state :=
  mkState (st_fs st) (enigma st) (processed_files st) (stdout st ++ o)
    (opened st).

Definition open (target : str) (m : mode) (st : state) : state :=
  mkState (st_fs st) (enigma st) (processed_files st) (stdout st)
    (opened st ++ [(target, m)]).

Definition set_enigma (e : AES) (st : state) : state :=
  mkState (st_fs st) (Some e) (processed_files st) (stdout st) (opened st).

(** The file at [target] rewritten with [data]. *)
Definition rewrite_file (target data : str) (fs : filesystem) : filesystem :=
  mkFS (path_exists fs) (abspath fs) (isdir fs) (listdir fs)
    (λ p, if decide (p = target) then Some data else contents fs p).

(** Lines 200-206. *)
Definition commit (target data : str) (st : state) : state :=
  let st := open target wb st in
  mkState (rewrite_file target data (st_fs st)) (enigma st)
    (S (processed_files st)) (stdout st) (opened st).

(** The paths opened for reading, and for writing, in the order of the
    calls. *)
Definition reads (st : state) : list str :=
  (filter (λ call, call.2 = rb) (opened st)).*1.

Definition writes (st : state) : list str :=
  (filter (λ call, call.2 = wb) (opened st)).*1.

(** The state in which the loop ends, whether it runs through or an
    exception leaves it. *)
Definition final_state (r : exn * state + state) : state :=
  match r with
  | inl (_, st) => st
  | inr st => st
  end.

Definition completed (r : exn * state + state) : Prop :=
  match r with
  | inl _ => False
  | inr _ => True
  end.

Section Main.
Context `{Library}.

(** One turn of the loop of line 173, for [target].  [pw] is
    [options.password] after line 131 and [target_columns] the global of
    that name.  [inl] is an exception that leaves the loop (the state it
    comes with does not record how far the cipher object had gone). *)
Definition process_target (opts : options) (pw : str)
    (target_columns : list nat) (target : str) (st : state)
  : exn * state + state :=
  match crypto_init pw with
  | inl e => inl (e, st)
  | inr fresh =>
      let st := set_enigma fresh st in
      let st :=
        if verbose opts then print [ProcessingFile (abspath (st_fs st) target)] st
        else st in
      match contents (st_fs st) target with
      | None => inl (IOError, st)
      | Some data =>
          let st := open target rb st in
          let (lines, malformed) := csv_reader data in
          match lines_loop (truthy (columns opts)) target_columns lines []
                  fresh with
          | inl e => inl (e, st)
          | inr (csv_contents, used) =>
              let st := set_enigma used st in
              if malformed then
                inr (print [NotValidCsv (abspath (st_fs st) target)] st)
              else if not_really opts then
                inr (print ((PrintedLine <$> csv_contents) ++ [BlankLine]) st)
              else inr (commit target (csv_writer csv_contents) st)
          end
      end
  end.

(** The state in which a target is read: a cipher object made anew, the
    name of the file printed when asked for, the file opened. *)
Definition reading (opts : options) (pw : str) (target : str) (st : state)
  : state :=
  let st := set_enigma (mkAES (md5 pw) 0) st in
  let st :=
    if verbose opts then print [ProcessingFile (abspath (st_fs st) target)] st
    else st in
  open target rb st.

(** The ways a turn of the loop can go: the file cannot be opened; a row
    lacks a chosen column; the reader gives up; the rows are printed; the
    file is rewritten. *)
Inductive turn (opts : options) (pw : str) (target_columns : list nat)
    (target : str) (st : state) : exn * state + state → Prop :=
  | turn_unopened st' :
      contents (st_fs st) target = None →
      st_fs st' = st_fs st → opened st' = opened st →
      processed_files st' = processed_files st →
      turn opts pw target_columns target st (inl (IOError, st'))
  | turn_out_of_range data lines malformed :
      contents (st_fs st) target = Some data →
      csv_reader data = (lines, malformed) →
      truthy (columns opts) = true →
      Exists (λ line, Exists (λ column, length line ≤ column) target_columns)
        lines →
      turn opts pw target_columns target st
        (inl (IndexError, reading opts pw target st))
  | turn_malformed data lines csv_contents used :
      contents (st_fs st) target = Some data →
      csv_reader data = (lines, true) →
      lines_loop (truthy (columns opts)) target_columns lines []
        (mkAES (md5 pw) 0) = inr (csv_contents, used) →
      turn opts pw target_columns target st
        (inr (print [NotValidCsv (abspath (st_fs st) target)]
                (set_enigma used (reading opts pw target st))))
  | turn_printed data lines csv_contents used :
      contents (st_fs st) target = Some data →
      csv_reader data = (lines, false) →
      lines_loop (truthy (columns opts)) target_columns lines []
        (mkAES (md5 pw) 0) = inr (csv_contents, used) →
      not_really opts = true →
      turn opts pw target_columns target st
        (inr (print ((PrintedLine <$> csv_contents) ++ [BlankLine])
                (set_enigma used (reading opts pw target st))))
  | turn_committed data lines csv_contents used :
      contents (st_fs st) target = Some data →
      csv_reader data = (lines, false) →
      lines_loop (truthy (columns opts)) target_columns lines []
        (mkAES (md5 pw) 0) = inr (csv_contents, used) →
      not_really opts = false →
      turn opts pw target_columns target st
        (inr (commit target (csv_writer csv_contents)
                (set_enigma used (reading opts pw target st)))).

(** The loop of line 173 over the crawled targets. *)
Fixpoint main_loop (opts : options) (pw : str) (target_columns : list nat)
    (targets : list str) (st : state) : exn * state + state :=
  match targets with
  | [] => inr st
  | target :: rest =>
      match process_target opts pw target_columns target st with
      | inl failure => inl failure
      | inr st1 => main_loop opts pw target_columns rest st1
      end
  end.

(** Lines 207-212. *)
Definition summary (st : state) : outcome :=
  Exit ExitOk
    (print [if decide (processed_files st = 0) then NothingDone
            else FilesAltered (processed_files st)] st).

(** The script from line 120 on: [opts] and [args] are what the option
    parser returns, [typed] what the user answers when asked for the
    password, [fs] the file system at the start.  [None]: the crawl needs
    more than [fuel]. *)
Definition script (fuel : nat) (opts : options) (args : list str)
    (typed : str) (fs : filesystem) : option outcome :=
  let st := mkState fs None 0 [] [] in
  if match columns opts with
     | Some value => negb (check_columns value)
     | None => false
     end
  then Some (Exit BadColumnNumber st)
  else if help opts then Some (Exit ExitOk (print [LongHelp] st))
  else match args with
  | [] => Some (Exit NoPathsGiven st)
  | _ =>
      match list_find (λ path, path_exists fs path = false) args with
      | Some (_, path) => Some (Exit (TargetDoesNotExist path) st)
      | None =>
          let paths := abspath fs <$> args in
          let pw := if truthy (password opts) then default [] (password opts)
                    else typed in
          let opts := mkOptions (help opts) (columns opts) (Some pw)
                        (not_really opts) (verbose opts || not_really opts) in
          match target_columns_of (columns opts) with
          | inl e => Some (Uncaught e st)
          | inr target_columns =>
              targets ← crawler fuel fs paths;
              Some match main_loop opts pw target_columns targets st with
                   | inl (e, st1) => Uncaught e st1
                   | inr st1 => summary st1
                   end
          end
      end
  end.

End Main.

(** ** Directory trees *)

(** What lies under a path: a regular file, or a directory with its
    entries by name. *)
Inductive tree :=
  | File
  | Dir (entries : list (str * tree)).

(** The file system shows the tree [t] at [path]. *)
Inductive is_tree (fs : filesystem) : str → tree → Prop :=
  | is_tree_file path :
      isdir fs path = false → is_tree fs path File
  | is_tree_dir path entries :
      isdir fs path = true →
      listdir fs path = entries.*1 →
      Forall (λ e, is_tree fs (join path e.1) e.2) entries →
      is_tree fs path (Dir entries).

(** The names of a directory are distinct and hold no slash. *)
Inductive well_named : tree → Prop :=
  | well_named_file : well_named File
  | well_named_dir entries :
      NoDup entries.*1 →
      Forall (λ name, "/"%byte ∉ name) entries.*1 →
      Forall (λ e, well_named e.2) entries →
      well_named (Dir entries).

(** [p] is the path of a regular file of the tree [t] found at [path]. *)
Inductive file_in : str → tree → str → Prop :=
  | file_here path : file_in path File path
  | file_below path entries name t p :
      (name, t) ∈ entries →
      file_in (join path name) t p →
      file_in path (Dir entries) p.

(** The paths of the regular files of a tree, entries in listing order. *)
Fixpoint files_of (path : str) (t : tree) : list str :=
  match t with
  | File => [path]
  | Dir entries => entries ≫= λ '(name, t'), files_of (join path name) t'
  end.

Fixpoint count_files (t : tree) : nat :=
  match t with
  | File => 1
  | Dir entries => sum_list_with (λ '(_, t'), count_files t') entries
  end.

Fixpoint depth (t : tree) : nat :=
  match t with
  | File => 0
  | Dir entries => S (max_list_with (λ '(_, t'), depth t') entries)
  end.

(** ** A small instance of the libraries

    Stand-ins for MD5, the AES block function and the CSV tokenizer, on
    which the model runs by computation. *)

Definition b (s : string) : str := list_byte_of_string s.

Module Plain.

Definition md5 (s : str) : str :=
  replicate 16 (foldr xor_byte "000"%byte s).

Definition aes_encrypt_block (key : str) (n : nat) : str :=
  imap (λ j k,
          xor_byte k (default "000"%byte (Byte.of_nat ((16 * n + j) `mod` 256))))
    key.

(** One row per line, fields between commas; a line that holds a null
    byte is malformed. *)
Fixpoint read_lines (lines : list str) : list (list str) * bool :=
  match lines with
  | [] => ([], false)
  | line :: rest =>
      if bool_decide ("000"%byte ∈ line) then ([], true)
      else if bool_decide (line = [] ∧ rest = []) then ([], false)
      else let (rows, malformed) := read_lines rest in
           (split ","%byte line :: rows, malformed)
  end.

Definition csv_reader (data : str) : list (list str) * bool :=
  read_lines (split "010"%byte data).

Fixpoint join_fields (row : list str) : str :=
  match row with
  | [] => []
  | [field] => field
  | field :: rest => field ++ ","%byte :: join_fields rest
  end.

Definition csv_writer (rows : list (list str)) : str :=
  flat_map (λ row, join_fields row ++ ["010"%byte]) rows.

Lemma md5_digest_size (s : str) : length (md5 s) = 16.
Proof. apply length_replicate. Qed.

End Plain.

Definition plain : Library :=
  Build_Library Plain.md5 Plain.md5_digest_size Plain.aes_encrypt_block
    Plain.csv_reader Plain.csv_writer.

(** ** An example run

    A file system with a directory [/d] that holds [a.csv] and a directory
    [sub] with [b.csv] in it, and a file [/short.csv] whose rows have one
    field. *)

Module Example.

Definition a_rows : list (list str) :=
  [[b "1"; b "secret1"]; [b "2"; b "secret2"]].

Definition b_rows : list (list str) := [[b "x"; b "y"; b "z"]].

Definition short_rows : list (list str) := [[b "only"]; [b "one"]].

Definition fs : filesystem :=
  mkFS
    (λ p, bool_decide (p ∈ [b "/d"; b "/d/a.csv"; b "/d/sub";
                             b "/d/sub/b.csv"; b "/short.csv"]))
    id
    (λ p, bool_decide (p ∈ [b "/d"; b "/d/sub"]))
    (λ p, if decide (p = b "/d") then [b "a.csv"; b "sub"]
          else if decide (p = b "/d/sub") then [b "b.csv"]
          else [])
    (λ p, if decide (p = b "/d/a.csv") then Some (Plain.csv_writer a_rows)
          else if decide (p = b "/d/sub/b.csv") then Some (Plain.csv_writer b_rows)
          else if decide (p = b "/short.csv") then Some (Plain.csv_writer short_rows)
          else None).

Definition d_tree : tree :=
  Dir [(b "a.csv", File); (b "sub", Dir [(b "b.csv", File)])].

(** [-c 1 --password pw]. *)
Definition opts : options :=
  mkOptions false (Some (b "1")) (Some (b "pw")) false false.

(** [--password pw], every column. *)
Definition opts_all : options :=
  mkOptions false None (Some (b "pw")) false false.

(** No option: the password is asked for. *)
Definition opts_ask : options := mkOptions false None None false false.

Definition start : state := mkState fs None 0 [] [].

(** [-n --password pw]. *)
Definition opts_dry : options :=
  mkOptions false None (Some (b "pw")) true false.

(** A file the tokenizer gives up on in its second line. *)
Definition bad_data : str := b "a,b" ++ ["010"; "000"; "010"]%byte.

Definition bad_fs : filesystem :=
  mkFS (λ _, true) id (λ _, false) (λ _, [])
    (λ p, if decide (p = b "/bad.csv") then Some bad_data
          else contents fs p).


End Example.

(** * Properties *)

(** ** Exclusive or *)

Lemma xor8_cancel (x k : bits8) : xor8 (xor8 x k) k = x.
Proof.
  destruct x as (x0 & x1 & x2 & x3 & x4 & x5 & x6 & x7).
  destruct k as (k0 & k1 & k2 & k3 & k4 & k5 & k6 & k7).
  cbn. by rewrite !xorb_assoc, !xorb_nilpotent, !xorb_false_r.
Qed.

Lemma xor_byte_cancel (a k : byte) : xor_byte (xor_byte a k) k = a.
Proof.
  unfold xor_byte. rewrite Byte.to_bits_of_bits, xor8_cancel.
  apply Byte.of_bits_to_bits.
Qed.

(** Field-wise exclusive or with a mask at least as long as the field. *)
Lemma xor_mask_cancel (s mask : str) :
  length s ≤ length mask →
  zip_with xor_byte (zip_with xor_byte s mask) mask = s.
Proof.
  revert mask. induction s as [|a s IH]; intros [|k mask] Hlen; simpl in *;
    try done; try lia.
  rewrite xor_byte_cancel, IH; [done | lia].
Qed.

Lemma xor_mask_length (s mask : str) :
  length s ≤ length mask → length (zip_with xor_byte s mask) = length s.
Proof. rewrite length_zip_with. lia. Qed.

(** ** The cipher object *)

Section CipherFacts.
Context `{Library}.

Lemma keystream_length key start len : length (keystream key start len) = len.
Proof. unfold keystream. by rewrite length_fmap, length_seq. Qed.

Lemma keystream_app key start m n :
  keystream key start (m + n) =
  keystream key start m ++ keystream key (start + m) n.
Proof. unfold keystream. by rewrite seq_app, fmap_app. Qed.

Lemma process_length e s : length (AES_process e s).1 = length s.
Proof. simpl. apply xor_mask_length. by rewrite keystream_length. Qed.

Lemma process_key e s : aes_key (AES_process e s).2 = aes_key e.
Proof. done. Qed.

Lemma process_pos e s : aes_pos (AES_process e s).2 = aes_pos e + length s.
Proof. done. Qed.

(** The object after a call depends on the length of the input only. *)
Lemma process_state_length e s s' :
  length s = length s' → (AES_process e s).2 = (AES_process e s').2.
Proof. simpl. by intros ->. Qed.

(** From the same position, the cipher undoes itself. *)
Lemma process_involutive e s :
  AES_process e (AES_process e s).1 = (s, (AES_process e s).2).
Proof.
  unfold AES_process at 1. rewrite process_length. simpl. f_equal.
  apply xor_mask_cancel. by rewrite keystream_length.
Qed.

Lemma process_app e a c :
  AES_process e (a ++ c) =
  ((AES_process e a).1 ++ (AES_process (AES_process e a).2 c).1,
   (AES_process (AES_process e a).2 c).2).
Proof.
  unfold AES_process. simpl. rewrite length_app, keystream_app. f_equal.
  - apply zip_with_app. by rewrite keystream_length.
  - f_equal. lia.
Qed.

Lemma process_nil e : AES_process e [] = ([], e).
Proof. destruct e as [key pos]. unfold AES_process. simpl. by rewrite Nat.add_0_r. Qed.

(** C4 (stream continuity): two calls of [crypto] in a row, on [a] and
    then on [c], return the two parts, cut at [len(a)], of what one call
    returns on [a + c], and leave the cipher object in the same state;
    the position reached is the starting one plus the number of bytes
    consumed. *)
Theorem crypto_stream_continuity (enigma : AES) (a c : str) :
  let (out_a, enigma1) := crypto a enigma in
  let (out_c, enigma2) := crypto c enigma1 in
  let (out, enigma') := crypto (a ++ c) enigma in
  out = out_a ++ out_c ∧
  take (length a) out = out_a ∧ drop (length a) out = out_c ∧
  enigma' = enigma2 ∧
  aes_pos enigma' = aes_pos enigma + length (a ++ c).
Proof.
  unfold crypto.
  pose proof (process_app enigma a c) as Happ.
  pose proof (process_length enigma a) as Hlen.
  pose proof (process_pos enigma a) as Hpa.
  destruct (AES_process enigma a) as [out_a enigma1]; cbn [fst snd] in *.
  pose proof (process_pos enigma1 c) as Hpc.
  destruct (AES_process enigma1 c) as [out_c enigma2]; cbn [fst snd] in *.
  rewrite Happ. repeat split.
  - by rewrite <- Hlen, take_app_length.
  - by rewrite <- Hlen, drop_app_length.
  - rewrite Hpc, Hpa, length_app. lia.
Qed.

End CipherFacts.

(** ** Rows *)

Section RowFacts.
Context `{Library}.

#[local] Arguments crypto : simpl never.

Lemma crypto_eq field enigma c enigma1 :
  crypto field enigma = (c, enigma1) →
  c = zip_with xor_byte field
        (keystream (aes_key enigma) (aes_pos enigma) (length field)) ∧
  length c = length field ∧
  aes_key enigma1 = aes_key enigma ∧
  aes_pos enigma1 = aes_pos enigma + length field ∧
  crypto c enigma = (field, enigma1).
Proof.
  unfold crypto. intros Hc.
  pose proof (process_length enigma field) as Hlen.
  pose proof (process_involutive enigma field) as Hinv.
  rewrite Hc in Hlen, Hinv. cbn [fst snd] in *.
  unfold AES_process in Hc. by simplify_eq.
Qed.

(** *** Every field: [map(crypto, line)] *)

Lemma map_crypto_spec line : ∀ enigma newline enigma',
  map_crypto line enigma = (newline, enigma') →
  length <$> newline = length <$> line ∧
  aes_key enigma' = aes_key enigma ∧
  aes_pos enigma' = aes_pos enigma + sum_list (length <$> line) ∧
  map_crypto newline enigma = (line, enigma').
Proof.
  induction line as [|field rest IH]; intros enigma newline enigma' Hm;
    cbn [map_crypto] in Hm.
  - simplify_eq. simpl. repeat split; lia.
  - destruct (crypto field enigma) as [c enigma1] eqn:Hc.
    destruct (map_crypto rest enigma1) as [cs enigma2] eqn:Hrest.
    simplify_eq.
    apply crypto_eq in Hc as (_ & Hlen & Hkey & Hpos & Hback).
    apply IH in Hrest as (Hlens & Hkey' & Hpos' & Hback').
    cbn [map_crypto]. rewrite Hback, Hback', !fmap_cons, Hlen, Hlens.
    simpl. repeat split; [congruence | lia].
Qed.

(** *** Chosen fields: the loop over the columns *)

Lemma columns_loop_defined line columns : ∀ newline enigma,
  Forall (λ column, column < length line) columns →
  is_Some (match columns_loop line columns newline enigma with
           | inr r => Some r
           | inl _ => None
           end).
Proof.
  induction columns as [|column rest IH]; intros newline enigma Hrange;
    cbn [columns_loop]; [done|].
  inversion_clear Hrange as [|? ? Hc Hrest].
  apply lookup_lt_is_Some in Hc as [field ->].
  destruct (crypto field enigma) as [c enigma1]. by apply IH.
Qed.

(** The loop raises nothing but [IndexError], and raises it exactly when a
    column is out of range. *)
Lemma columns_loop_raises line columns : ∀ newline enigma e,
  columns_loop line columns newline enigma = inl e →
  e = IndexError ∧ Exists (λ column, length line ≤ column) columns.
Proof.
  induction columns as [|column rest IH]; intros newline enigma e Hloop;
    cbn [columns_loop] in Hloop; [done|].
  destruct (line !! column) as [field|] eqn:Hfield.
  - destruct (crypto field enigma) as [c enigma1].
    apply IH in Hloop as [-> Hex]. split; [done | by constructor 2].
  - simplify_eq. split; [done|]. constructor 1. by apply lookup_ge_None.
Qed.


(** What the loop leaves: the length of the row, the fields it does not
    visit, the key, and the position, which moves by the length of each
    field visited, once per visit. *)
Lemma columns_loop_frame line columns : ∀ newline enigma newline' enigma',
  columns_loop line columns newline enigma = inr (newline', enigma') →
  length newline' = length newline ∧
  (∀ i, i ∉ columns → newline' !! i = newline !! i) ∧
  aes_key enigma' = aes_key enigma ∧
  aes_pos enigma' =
    aes_pos enigma +
    sum_list ((λ column, length (default [] (line !! column))) <$> columns).
Proof.
  induction columns as [|column rest IH];
    intros newline enigma newline' enigma' Hloop; cbn [columns_loop] in Hloop.
  - simplify_eq. simpl. repeat split; lia.
  - destruct (line !! column) as [field|] eqn:Hfield; [|done].
    destruct (crypto field enigma) as [c enigma1] eqn:Hc.
    apply crypto_eq in Hc as (_ & _ & Hkey & Hpos & _).
    apply IH in Hloop as (Hlen & Hother & Hkey' & Hpos').
    rewrite length_insert in Hlen. repeat split; [done| |congruence|].
    + intros i Hi. apply not_elem_of_cons in Hi as [Hne Hi].
      rewrite Hother by done. by apply list_lookup_insert_ne.
    + rewrite fmap_cons, Hpos', Hpos. cbn beta. rewrite Hfield. simpl. lia.
Qed.

(** Two rows with fields of the same lengths go through the loop in step:
    each field is left alone in both, or combined in both with the same
    piece of keystream, as long as the field. *)
Lemma columns_loop_pair columns : ∀ line1 line2 new1 new2 enigma new1' enigma',
  length <$> line1 = length <$> line2 →
  length new1 = length line1 → length new2 = length line2 →
  columns_loop line1 columns new1 enigma = inr (new1', enigma') →
  ∃ new2',
    columns_loop line2 columns new2 enigma = inr (new2', enigma') ∧
    ∀ i,
      (new1' !! i = new1 !! i ∧ new2' !! i = new2 !! i) ∨
      (∃ f1 f2 mask,
         line1 !! i = Some f1 ∧ line2 !! i = Some f2 ∧
         length mask = length f1 ∧
         new1' !! i = Some (zip_with xor_byte f1 mask) ∧
         new2' !! i = Some (zip_with xor_byte f2 mask)).
Proof.
  induction columns as [|column rest IH];
    intros line1 line2 new1 new2 enigma new1' enigma' Hlens Hn1 Hn2 Hloop;
    cbn [columns_loop] in Hloop |- *.
  - simplify_eq. exists new2. split; [done|]. intros i. by left.
  - destruct (line1 !! column) as [f1|] eqn:Hf1; [|done].
    assert (∃ f2, line2 !! column = Some f2 ∧ length f2 = length f1)
      as (f2 & Hf2 & Hlen2).
    { apply (f_equal (λ l, l !! column)) in Hlens.
      rewrite !list_lookup_fmap, Hf1 in Hlens. simpl in Hlens.
      destruct (line2 !! column) as [f2|]; simplify_eq/=. eauto. }
    rewrite Hf2.
    destruct (crypto f1 enigma) as [c1 enigma1] eqn:Hc1.
    destruct (crypto f2 enigma) as [c2 enigma2] eqn:Hc2.
    apply crypto_eq in Hc1 as (Hc1 & _ & Hkey1 & Hpos1 & _).
    apply crypto_eq in Hc2 as (Hc2 & _ & Hkey2 & Hpos2 & _).
    assert (enigma2 = enigma1) as ->.
    { destruct enigma1, enigma2. simpl in *. f_equal; congruence. }
    rewrite Hlen2 in Hc2.
    destruct (IH line1 line2 (<[column := c1]> new1) (<[column := c2]> new2)
                enigma1 new1' enigma') as (new2' & Hloop2 & Hrel);
      rewrite ?length_insert; try done.
    exists new2'. split; [done|]. intros i.
    destruct (Hrel i) as [[Hi1 Hi2]|Hmask]; [|by right].
    destruct (decide (i = column)) as [->|Hne].
    + right. exists f1, f2, (keystream (aes_key enigma) (aes_pos enigma) (length f1)).
      rewrite Hi1, Hi2, keystream_length, <- Hc1, <- Hc2.
      repeat split; try done.
      * apply list_lookup_insert_eq. apply lookup_lt_Some in Hf1. lia.
      * apply list_lookup_insert_eq. apply lookup_lt_Some in Hf2. lia.
    + left. rewrite Hi1, Hi2. by rewrite !list_lookup_insert_ne.
Qed.

(** The loop keeps the length of each field. *)
Lemma columns_loop_lengths line columns newline enigma' enigma :
  columns_loop line columns line enigma = inr (newline, enigma') →
  length <$> newline = length <$> line.
Proof.
  intros Hloop.
  destruct (columns_loop_pair columns line line line line enigma newline enigma')
    as (new2 & Hloop2 & Hrel); try done.
  apply list_eq. intros i. rewrite !list_lookup_fmap.
  destruct (Hrel i) as [[-> _]|(f1 & f2 & mask & Hf1 & _ & Hmask & -> & _)];
    [done|].
  rewrite Hf1. simpl. f_equal. apply xor_mask_length. lia.
Qed.

(** Run again on its own result, from the same state of the cipher, the
    loop gives the row back. *)
Lemma columns_loop_involutive line columns newline enigma enigma' :
  columns_loop line columns line enigma = inr (newline, enigma') →
  columns_loop newline columns newline enigma = inr (line, enigma').
Proof.
  intros Hloop.
  pose proof (columns_loop_lengths _ _ _ _ _ Hloop) as Hlens.
  assert (length newline = length line) as Hlen.
  { apply (f_equal length) in Hlens. by rewrite !length_fmap in Hlens. }
  destruct (columns_loop_pair columns line newline line newline enigma
              newline enigma') as (back & Hloop2 & Hrel); try done.
  rewrite Hloop2. do 2 f_equal. apply list_eq. intros i.
  destruct (Hrel i)
    as [[Hi ->]|(f1 & f2 & mask & Hf1 & Hf2 & Hmask & Hn & ->)]; [done|].
  rewrite Hf1. f_equal. rewrite Hn in Hf2. simplify_eq.
  apply xor_mask_cancel. lia.
Qed.

(** *** One row *)

Lemma transform_line_involutive by_column target_columns line enigma
    newline enigma' :
  transform_line by_column target_columns line enigma = inr (newline, enigma') →
  transform_line by_column target_columns newline enigma = inr (line, enigma').
Proof.
  unfold transform_line. destruct by_column; simpl.
  - apply columns_loop_involutive.
  - intros Hm. simplify_eq. f_equal.
    by apply map_crypto_spec in Hm as (_ & _ & _ & ->).
Qed.

Lemma transform_line_lengths by_column target_columns line enigma
    newline enigma' :
  transform_line by_column target_columns line enigma = inr (newline, enigma') →
  length <$> newline = length <$> line.
Proof.
  unfold transform_line. destruct by_column; simpl.
  - apply columns_loop_lengths.
  - intros Hm. simplify_eq. by apply map_crypto_spec in Hm as (? & _).
Qed.

(** A row is transformed unless a chosen column is out of its range, and
    then the exception is [IndexError]. *)
Lemma transform_line_defined by_column target_columns line enigma :
  (by_column = true → Forall (λ column, column < length line) target_columns) →
  ∃ newline enigma',
    transform_line by_column target_columns line enigma = inr (newline, enigma').
Proof.
  unfold transform_line. destruct by_column; simpl; intros Hrange.
  - pose proof (columns_loop_defined line (sorted target_columns) line enigma)
      as Hdef.
    destruct (columns_loop line (sorted target_columns) line enigma)
      as [e|[newline enigma']]; [|by eauto].
    destruct Hdef as [? ?]; [|done].
    unfold sorted. rewrite merge_sort_Permutation. auto.
  - destruct (map_crypto line enigma) as [newline enigma']. eauto.
Qed.

Lemma transform_line_raises by_column target_columns line enigma e :
  transform_line by_column target_columns line enigma = inl e →
  e = IndexError ∧ by_column = true ∧
  Exists (λ column, length line ≤ column) target_columns.
Proof.
  unfold transform_line. destruct by_column; simpl; [|done].
  intros Hloop. apply columns_loop_raises in Hloop as [-> Hex].
  unfold sorted in Hex. by rewrite merge_sort_Permutation in Hex.
Qed.


(** C10 (length preservation): at any position of the stream, [crypto]
    returns as many bytes as it is given; on the empty string it returns
    the empty string and leaves the cipher object as it was; and every
    field of a transformed row is as long as the field it comes from. *)
Theorem crypto_preserves_length (enigma : AES) (s : str) :
  length (crypto s enigma).1 = length s ∧
  crypto [] enigma = ([], enigma) ∧
  ∀ by_column target_columns line newline enigma',
    transform_line by_column target_columns line enigma = inr (newline, enigma') →
    length <$> newline = length <$> line.
Proof.
  split; [apply process_length|]. split; [apply process_nil|].
  intros by_column target_columns line newline enigma'.
  apply transform_line_lengths.
Qed.

(** C5 (frame of the row transformation): when every chosen column is in
    the range of the row, the new row has the length of the row and each
    of its fields the length of the field at the same index, the fields at
    indices that are not chosen are the fields of the row, the key is
    kept, and the position of the stream moves by the lengths of the
    fields passed through the cipher: the fields at the columns visited,
    which are the sorted chosen columns (all the fields when no column is
    chosen). *)
Theorem transform_line_frame (by_column : bool) (target_columns : list nat)
    (line : list str) (enigma : AES) :
  (by_column = true → Forall (λ column, column < length line) target_columns) →
  ∃ newline enigma',
    transform_line by_column target_columns line enigma = inr (newline, enigma') ∧
    length newline = length line ∧
    length <$> newline = length <$> line ∧
    (by_column = true → ∀ i, i ∉ target_columns → newline !! i = line !! i) ∧
    aes_key enigma' = aes_key enigma ∧
    aes_pos enigma' =
      aes_pos enigma +
      if by_column
      then sum_list ((λ column, length (default [] (line !! column)))
                       <$> sorted target_columns)
      else sum_list (length <$> line).
Proof.
  intros Hrange.
  destruct (transform_line_defined by_column target_columns line enigma Hrange)
    as (newline & enigma' & Hline).
  exists newline, enigma'. split; [done|].
  pose proof (transform_line_lengths _ _ _ _ _ _ Hline) as Hlens.
  split; [|split; [done|]].
  { apply (f_equal length) in Hlens. by rewrite !length_fmap in Hlens. }
  unfold transform_line in Hline. destruct by_column; simpl in Hline.
  - apply columns_loop_frame in Hline as (_ & Hother & Hkey & Hpos).
    repeat split; [|done..]. intros _ i Hi. apply Hother.
    unfold sorted. by rewrite merge_sort_Permutation.
  - simplify_eq. apply map_crypto_spec in Hline as (_ & Hkey & Hpos & _).
    repeat split; done.
Qed.

End RowFacts.

(** ** Files *)

Section FileFacts.
Context `{Library}.

(** The constructor never fails on an MD5 digest. *)
Lemma crypto_init_fresh password :
  crypto_init password = inr (mkAES (md5 password) 0).
Proof.
  unfold crypto_init, AES_new. rewrite md5_digest_size.
  by rewrite bool_decide_eq_true_2 by apply list_elem_of_here.
Qed.

Lemma lines_loop_acc by_column target_columns lines : ∀ csv_contents enigma,
  lines_loop by_column target_columns lines csv_contents enigma =
  match lines_loop by_column target_columns lines [] enigma with
  | inl e => inl e
  | inr (rows, enigma') => inr (csv_contents ++ rows, enigma')
  end.
Proof.
  induction lines as [|line rest IH]; intros csv_contents enigma; simpl.
  - by rewrite app_nil_r.
  - destruct (transform_line by_column target_columns line enigma)
      as [e|[newline enigma1]]; [done|].
    rewrite (IH (csv_contents ++ [newline])), (IH [newline]).
    destruct (lines_loop by_column target_columns rest [] enigma1)
      as [e|[rows enigma']]; [done|].
    by rewrite <- app_assoc.
Qed.

Lemma lines_loop_cons by_column target_columns line rest enigma :
  lines_loop by_column target_columns (line :: rest) [] enigma =
  match transform_line by_column target_columns line enigma with
  | inl e => inl e
  | inr (newline, enigma1) =>
      match lines_loop by_column target_columns rest [] enigma1 with
      | inl e => inl e
      | inr (rows, enigma') => inr (newline :: rows, enigma')
      end
  end.
Proof.
  simpl. destruct (transform_line by_column target_columns line enigma)
    as [e|[newline enigma1]]; [done|].
  by rewrite lines_loop_acc.
Qed.

Lemma lines_loop_involutive by_column target_columns lines :
  ∀ enigma rows enigma',
  lines_loop by_column target_columns lines [] enigma = inr (rows, enigma') →
  lines_loop by_column target_columns rows [] enigma = inr (lines, enigma').
Proof.
  induction lines as [|line rest IH]; intros enigma rows enigma' Hloop.
  - simpl in Hloop. by simplify_eq.
  - rewrite lines_loop_cons in Hloop.
    destruct (transform_line by_column target_columns line enigma)
      as [e|[newline enigma1]] eqn:Hline; [done|].
    destruct (lines_loop by_column target_columns rest [] enigma1)
      as [e|[rows1 enigma2]] eqn:Hrest; [done|].
    simplify_eq. rewrite lines_loop_cons.
    by rewrite (transform_line_involutive _ _ _ _ _ _ Hline), (IH _ _ _ Hrest).
Qed.

Lemma lines_loop_defined by_column target_columns lines : ∀ enigma,
  (by_column = true →
   Forall (λ line, Forall (λ column, column < length line) target_columns)
     lines) →
  ∃ rows enigma',
    lines_loop by_column target_columns lines [] enigma = inr (rows, enigma').
Proof.
  induction lines as [|line rest IH]; intros enigma Hrange.
  - simpl. eauto.
  - rewrite lines_loop_cons.
    destruct (transform_line_defined by_column target_columns line enigma)
      as (newline & enigma1 & ->).
    { intros Hb. by apply Hrange, Forall_cons in Hb as [? _]. }
    destruct (IH enigma1) as (rows & enigma' & ->); [|by eauto].
    intros Hb. by apply Hrange, Forall_cons in Hb as [_ ?].
Qed.


Lemma lines_loop_raises by_column target_columns lines :
  ∀ csv_contents enigma e,
  lines_loop by_column target_columns lines csv_contents enigma = inl e →
  e = IndexError ∧ by_column = true ∧
  Exists (λ line, Exists (λ column, length line ≤ column) target_columns)
    lines.
Proof.
  induction lines as [|line rest IH]; intros csv_contents enigma e Hloop;
    cbn [lines_loop] in Hloop; [done|].
  destruct (transform_line by_column target_columns line enigma)
    as [e1|[newline enigma1]] eqn:Hline.
  - simplify_eq. apply transform_line_raises in Hline as (-> & -> & Hex).
    repeat split. by constructor 1.
  - apply IH in Hloop as (-> & -> & Hex). repeat split. by constructor 2.
Qed.

(** C1 (involution): whatever the password and the chosen columns, on a
    file each row of which holds every chosen column, the transformation
    of the file succeeds, and the transformation of its result, with the
    same password and columns and a cipher object made anew (position
    zero), gives the rows of the file back. *)
Theorem file_transform_involution (pw : str) (by_column : bool)
    (target_columns : list nat) (lines : list (list str)) :
  (by_column = true →
   Forall (λ line, Forall (λ column, column < length line) target_columns)
     lines) →
  ∃ rows,
    file_transform pw by_column target_columns lines = inr rows ∧
    file_transform pw by_column target_columns rows = inr lines.
Proof.
  intros Hrange. unfold file_transform. rewrite crypto_init_fresh.
  destruct (lines_loop_defined by_column target_columns lines
              (mkAES (md5 pw) 0) Hrange) as (rows & enigma' & Hloop).
  exists rows. rewrite Hloop. split; [done|].
  by rewrite (lines_loop_involutive _ _ _ _ _ _ Hloop).
Qed.

End FileFacts.

(** ** The main loop *)

Section MainFacts.
Context `{Library}.

Lemma reading_fs opts pw target st : st_fs (reading opts pw target st) = st_fs st.
Proof. unfold reading. by destruct (verbose opts). Qed.

Lemma reading_processed_files opts pw target st :
  processed_files (reading opts pw target st) = processed_files st.
Proof. unfold reading. by destruct (verbose opts). Qed.

Lemma reading_opened opts pw target st :
  opened (reading opts pw target st) = opened st ++ [(target, rb)].
Proof. unfold reading. by destruct (verbose opts). Qed.

(** One turn of the loop, once the file is found. *)
Lemma process_target_found opts pw target_columns target st data lines
    malformed :
  contents (st_fs st) target = Some data →
  csv_reader data = (lines, malformed) →
  process_target opts pw target_columns target st =
  match lines_loop (truthy (columns opts)) target_columns lines []
          (mkAES (md5 pw) 0) with
  | inl e => inl (e, reading opts pw target st)
  | inr (csv_contents, used) =>
      let st := set_enigma used (reading opts pw target st) in
      if malformed then inr (print [NotValidCsv (abspath (st_fs st) target)] st)
      else if not_really opts
      then inr (print ((PrintedLine <$> csv_contents) ++ [BlankLine]) st)
      else inr (commit target (csv_writer csv_contents) st)
  end.
Proof.
  intros Hdata Hread. unfold process_target, reading.
  rewrite crypto_init_fresh.
  destruct (verbose opts); simpl; rewrite Hdata, Hread; done.
Qed.

Lemma process_target_missing opts pw target_columns target st :
  contents (st_fs st) target = None →
  ∃ st', process_target opts pw target_columns target st = inl (IOError, st') ∧
         opened st' = opened st ∧ st_fs st' = st_fs st.
Proof.
  intros Hdata. unfold process_target. rewrite crypto_init_fresh.
  destruct (verbose opts); simpl; rewrite Hdata; eauto.
Qed.

Lemma contents_commit target data st :
  contents (st_fs (commit target data st)) target = Some data.
Proof. unfold commit, rewrite_file. cbn. by case_decide. Qed.

Lemma contents_commit_other target data st p :
  p ≠ target →
  contents (st_fs (commit target data st)) p = contents (st_fs st) p.
Proof. intros Hne. unfold commit, rewrite_file. cbn. by case_decide. Qed.

Lemma reads_print o st : reads (print o st) = reads st.
Proof. done. Qed.

Lemma writes_print o st : writes (print o st) = writes st.
Proof. done. Qed.

Lemma reads_set_enigma e st : reads (set_enigma e st) = reads st.
Proof. done. Qed.

Lemma writes_set_enigma e st : writes (set_enigma e st) = writes st.
Proof. done. Qed.

Lemma reads_reading opts pw target st :
  reads (reading opts pw target st) = reads st ++ [target].
Proof.
  unfold reads. rewrite reading_opened, filter_app, fmap_app. done.
Qed.

Lemma writes_reading opts pw target st :
  writes (reading opts pw target st) = writes st.
Proof.
  unfold writes. rewrite reading_opened, filter_app, fmap_app.
  apply app_nil_r.
Qed.

Lemma reads_commit target data st : reads (commit target data st) = reads st.
Proof.
  unfold reads, commit, open. simpl. rewrite filter_app, fmap_app.
  apply app_nil_r.
Qed.

Lemma writes_commit target data st :
  writes (commit target data st) = writes st ++ [target].
Proof. unfold writes, commit, open. simpl. by rewrite filter_app, fmap_app. Qed.

(** One turn of the loop opens its target for reading at most once (once
    when the turn ends without exception) and for writing at most once,
    and opens nothing else. *)
Lemma process_target_touches opts pw target_columns target st :
  let r := process_target opts pw target_columns target st in
  ∃ rs ws,
    reads (final_state r) = reads st ++ rs ∧
    writes (final_state r) = writes st ++ ws ∧
    rs `prefix_of` [target] ∧ ws `sublist_of` rs ∧
    (completed r → rs = [target]).
Proof.
  simpl. destruct (contents (st_fs st) target) as [data|] eqn:Hdata.
  - destruct (csv_reader data) as [lines malformed] eqn:Hread.
    rewrite (process_target_found _ _ _ _ _ _ _ _ Hdata Hread).
    destruct (lines_loop _ _ _ _ _) as [e|[csv_contents used]]; simpl.
    + exists [target], []. rewrite reads_reading, writes_reading, app_nil_r.
      repeat split; try done. apply sublist_nil_l.
    + destruct malformed; [|destruct (not_really opts)]; simpl;
        rewrite ?reads_commit, ?writes_commit, ?reads_print, ?writes_print,
          ?reads_set_enigma, ?writes_set_enigma, reads_reading, writes_reading.
      * exists [target], []. rewrite app_nil_r.
        repeat split; try done. apply sublist_nil_l.
      * exists [target], []. rewrite app_nil_r.
        repeat split; try done. apply sublist_nil_l.
      * by exists [target], [target].
  - destruct (process_target_missing opts pw target_columns target st Hdata)
      as (st' & -> & Hopened & _). simpl.
    exists [], []. unfold reads, writes. rewrite Hopened, !app_nil_r.
    repeat split; try done. apply prefix_nil.
Qed.

Lemma main_loop_touches opts pw target_columns targets : ∀ st,
  let r := main_loop opts pw target_columns targets st in
  ∃ rs ws,
    reads (final_state r) = reads st ++ rs ∧
    writes (final_state r) = writes st ++ ws ∧
    rs `prefix_of` targets ∧ ws `sublist_of` rs ∧
    (completed r → rs = targets).
Proof.
  induction targets as [|target rest IH]; intros st; simpl.
  - exists [], []. by rewrite !app_nil_r.
  - destruct (process_target_touches opts pw target_columns target st)
      as (rs1 & ws1 & Hr1 & Hw1 & Hpre1 & Hsub1 & Hdone1).
    destruct (process_target opts pw target_columns target st)
      as [[e st1]|st1]; simpl in *.
    + exists rs1, ws1. repeat split; try done.
      by apply (prefix_app_r _ [target] rest).
    + rewrite (Hdone1 I) in *.
      destruct (IH st1) as (rs2 & ws2 & Hr2 & Hw2 & Hpre2 & Hsub2 & Hdone2).
      exists (target :: rs2), (ws1 ++ ws2).
      rewrite Hr2, Hw2, Hr1, Hw1, <- !app_assoc. repeat split; try done.
      * by apply prefix_cons.
      * by apply (sublist_app _ [target]).
      * intros Hc. by rewrite Hdone2.
Qed.

(** C8, as the code has it: the loop opens a target for reading once for
    each occurrence of its path in the list of targets, in order and as
    far as it gets, and opens for writing a part of what it has read;
    it opens nothing else.  So a path that occurs twice among the
    targets is processed twice, and when no path occurs twice no file is
    opened twice for reading, nor twice for writing. *)
Theorem targets_touched_per_occurrence (opts : options) (pw : str)
    (target_columns : list nat) (targets : list str) (st : state) :
  let r := main_loop opts pw target_columns targets st in
  ∃ rs ws,
    reads (final_state r) = reads st ++ rs ∧
    writes (final_state r) = writes st ++ ws ∧
    rs `prefix_of` targets ∧ ws `sublist_of` rs ∧
    (completed r → rs = targets) ∧
    (NoDup targets → NoDup rs ∧ NoDup ws).
Proof.
  destruct (main_loop_touches opts pw target_columns targets st)
    as (rs & ws & Hr & Hw & Hpre & Hsub & Hdone).
  exists rs, ws. do 5 (split; [done|]).
  intros Hnd. destruct Hpre as [k ->]. apply NoDup_app in Hnd as [Hrs _].
  split; [done | by eapply sublist_NoDup].
Qed.


(** C6 (one cipher object per file): the object made for a target starts
    at position zero with the 16 bytes of the MD5 digest of the password
    as its key, whatever the loop did before; so the rows written for a
    file are those of [file_transform], which depend on the password, the
    chosen columns and the rows parsed and on nothing else: two turns of
    the loop, in any two states and on any two targets whose files parse
    to the same rows, write the same content. *)
Theorem per_file_determinism (opts : options) (pw : str)
    (target_columns : list nat) (lines rows : list (list str)) :
  file_transform pw (truthy (columns opts)) target_columns lines = inr rows →
  not_really opts = false →
  crypto_init pw = inr (mkAES (md5 pw) 0) ∧ length (md5 pw) = 16 ∧
  ∀ target1 st1 data1 target2 st2 data2,
    contents (st_fs st1) target1 = Some data1 →
    contents (st_fs st2) target2 = Some data2 →
    csv_reader data1 = (lines, false) → csv_reader data2 = (lines, false) →
    ∃ st1' st2',
      process_target opts pw target_columns target1 st1 = inr st1' ∧
      process_target opts pw target_columns target2 st2 = inr st2' ∧
      contents (st_fs st1') target1 = Some (csv_writer rows) ∧
      contents (st_fs st2') target2 = Some (csv_writer rows).
Proof.
  intros Hrows Hcommit. split; [apply crypto_init_fresh|].
  split; [apply md5_digest_size|].
  intros target1 st1 data1 target2 st2 data2 Hd1 Hd2 Hr1 Hr2.
  unfold file_transform in Hrows. rewrite crypto_init_fresh in Hrows.
  rewrite (process_target_found _ _ _ _ _ _ _ _ Hd1 Hr1).
  rewrite (process_target_found _ _ _ _ _ _ _ _ Hd2 Hr2).
  destruct (lines_loop _ _ _ _ _) as [e|[csv_contents used]]; [done|].
  simplify_eq. rewrite Hcommit. cbn zeta. do 2 eexists.
  split; [done|]. split; [done|]. by rewrite !contents_commit.
Qed.

End MainFacts.

(** ** The crawler *)

Lemma tree_induction (P : tree → Prop) :
  P File →
  (∀ entries, Forall (λ e, P e.2) entries → P (Dir entries)) →
  ∀ t, P t.
Proof.
  intros Hfile Hdir. fix IH 1. intros [|entries]; [done|].
  apply Hdir. induction entries as [|[name t] entries IHentries];
    constructor; [apply IH | apply IHentries].
Qed.

Lemma max_list_with_le {A} (f : A → nat) (x : A) (l : list A) :
  x ∈ l → f x ≤ max_list_with f l.
Proof. induction 1 as [|y ? ? ? IH]; simpl; lia. Qed.

Lemma depth_entry name t entries :
  (name, t) ∈ entries → depth t < depth (Dir entries).
Proof.
  intros Hin. cbn [depth].
  apply (max_list_with_le (λ '(_, t'), depth t')) in Hin. simpl in Hin. lia.
Qed.

Section CrawlerFacts.
Context (fs : filesystem).

Lemma crawler_loop_acc crawl paths : ∀ unrolled_paths,
  crawler_loop crawl fs paths unrolled_paths =
  (unrolled_paths ++.) <$> crawler_loop crawl fs paths [].
Proof.
  induction paths as [|path rest IH]; intros unrolled_paths; simpl.
  - by rewrite app_nil_r.
  - destruct (isdir fs path).
    + destruct (crawl _) as [ps|]; [|done].
      rewrite (IH (unrolled_paths ++ ps)), (IH ps).
      destruct (crawler_loop crawl fs rest []); simpl; [|done].
      by rewrite <- app_assoc.
    + rewrite (IH (unrolled_paths ++ [path])), (IH [path]).
      destruct (crawler_loop crawl fs rest []); simpl; [|done].
      by rewrite <- app_assoc.
Qed.

(** The expansion of the first path comes before that of the others. *)
Lemma crawler_loop_cons crawl path rest :
  crawler_loop crawl fs (path :: rest) [] =
  ps ← (if isdir fs path then crawl (join path <$> listdir fs path)
        else Some [path]);
  (ps ++.) <$> crawler_loop crawl fs rest [].
Proof.
  simpl. destruct (isdir fs path); simpl.
  - destruct (crawl _) as [ps|]; simpl; [|done]. apply crawler_loop_acc.
  - apply crawler_loop_acc.
Qed.

Lemma crawler_loop_app crawl paths1 paths2 out1 out2 :
  crawler_loop crawl fs paths1 [] = Some out1 →
  crawler_loop crawl fs paths2 [] = Some out2 →
  crawler_loop crawl fs (paths1 ++ paths2) [] = Some (out1 ++ out2).
Proof.
  revert out1. induction paths1 as [|path rest IH]; intros out1 H1 H2.
  - simpl in H1. by simplify_eq.
  - rewrite <- app_comm_cons, crawler_loop_cons. rewrite crawler_loop_cons in H1.
    destruct (if isdir fs path then _ else _) as [ps|]; simpl in *; [|done].
    destruct (crawler_loop crawl fs rest []) as [out|] eqn:Hrest;
      simpl in *; [|done].
    simplify_eq. rewrite (IH out eq_refl H2). simpl. by rewrite app_assoc.
Qed.

Lemma crawler_app fuel paths1 paths2 out1 out2 :
  crawler fuel fs paths1 = Some out1 →
  crawler fuel fs paths2 = Some out2 →
  crawler fuel fs (paths1 ++ paths2) = Some (out1 ++ out2).
Proof. destruct fuel; [done|]. apply crawler_loop_app. Qed.

(** Paths that are no directories are left as they are. *)
Lemma crawler_files fuel paths :
  Forall (λ path, isdir fs path = false) paths →
  crawler (S fuel) fs paths = Some paths.
Proof.
  simpl. induction 1 as [|path rest Hfile _ IH]; [done|].
  rewrite crawler_loop_cons, Hfile. simpl. by rewrite IH.
Qed.

(** A forest the file system shows is expanded tree after tree, given
    fuel above the depth of every tree. *)
Lemma crawler_forest : ∀ fuel (roots : list (str * tree)),
  0 < fuel →
  Forall (λ r, is_tree fs r.1 r.2 ∧ depth r.2 < fuel) roots →
  crawler fuel fs roots.*1 = Some (roots ≫= λ r, files_of r.1 r.2).
Proof.
  induction fuel as [|fuel IHfuel]; intros roots Hpos Hroots; [lia|].
  cbn [crawler].
  induction Hroots as [|[path t] roots [Htree Hdepth] _ IH]; [done|].
  rewrite fmap_cons, crawler_loop_cons, IH, bind_cons. cbn [fst snd] in *.
  inversion Htree as [? Hfile|? entries Hdir Hlist Hentries]; subst.
  - by rewrite Hfile.
  - rewrite Hdir, Hlist. cbn [depth] in Hdepth.
    assert (join path <$> entries.*1 =
            ((λ e, (join path e.1, e.2)) <$> entries).*1) as ->.
    { rewrite <- !list_fmap_compose. by apply list_fmap_ext. }
    rewrite IHfuel.
    + simpl. do 2 f_equal. rewrite list_fmap_bind.
      apply list_bind_ext; [|done]. by intros [name t'].
    + destruct entries; simpl in *; lia.
    + apply Forall_fmap, Forall_forall. intros [name t'] Hin. simpl.
      split; [by eapply (proj1 (Forall_forall _ _) Hentries (name, t'))|].
      apply depth_entry in Hin. cbn [depth] in Hin. lia.
Qed.

End CrawlerFacts.

(** ** Directory trees *)

Lemma files_of_length t : ∀ path, length (files_of path t) = count_files t.
Proof.
  induction t as [|entries IH] using tree_induction; intros path; [done|].
  cbn [files_of count_files].
  induction IH as [|[name t'] entries Ht' _ IHentries]; [done|].
  rewrite bind_cons, length_app, IHentries. simpl. by rewrite Ht'.
Qed.

Lemma files_of_file_in t : ∀ path p, p ∈ files_of path t ↔ file_in path t p.
Proof.
  induction t as [|entries IH] using tree_induction; intros path p.
  - simpl. rewrite list_elem_of_singleton. split.
    + intros ->. constructor.
    + by inversion 1.
  - cbn [files_of]. rewrite list_elem_of_bind. split.
    + intros ([name t'] & Hp & Hin).
      apply (file_below _ _ name t'); [done|].
      by apply (proj1 (Forall_forall _ _) IH (name, t') Hin).
    + inversion 1 as [|? ? name t' ? Hin Hp]; subst.
      exists (name, t'). split; [|done].
      by apply (proj1 (Forall_forall _ _) IH (name, t') Hin).
Qed.

Lemma files_of_not_dirs fs t : ∀ path,
  is_tree fs path t → Forall (λ p, isdir fs p = false) (files_of path t).
Proof.
  induction t as [|entries IH] using tree_induction; intros path Htree.
  - inversion Htree. by constructor.
  - inversion Htree as [|? ? _ _ Hentries]; subst.
    cbn [files_of]. apply Forall_bind, Forall_forall. intros [name t'] Hin.
    apply (proj1 (Forall_forall _ _) IH (name, t') Hin).
    apply (proj1 (Forall_forall _ _) Hentries (name, t') Hin).
Qed.

(** A file of a tree lies at the root or below it. *)
Lemma files_of_below t : ∀ path p,
  p ∈ files_of path t →
  ∃ s, p = path ++ s ∧ (s = [] ∨ ∃ s', s = "/"%byte :: s').
Proof.
  induction t as [|entries IH] using tree_induction; intros path p Hp.
  - apply list_elem_of_singleton in Hp as ->. exists []. by rewrite app_nil_r; auto.
  - cbn [files_of] in Hp. apply list_elem_of_bind in Hp as ([name t'] & Hp & Hin).
    apply (proj1 (Forall_forall _ _) IH (name, t') Hin) in Hp as (s & -> & _).
    exists ("/"%byte :: name ++ s). unfold join.
    rewrite <- app_assoc. simpl. eauto.
Qed.

(** Names without a slash are told apart by what follows them. *)
Lemma name_prefix_unique (name1 : str) : ∀ name2 s1 s2 : str,
  "/"%byte ∉ name1 → "/"%byte ∉ name2 →
  (s1 = [] ∨ ∃ s', s1 = "/"%byte :: s') →
  (s2 = [] ∨ ∃ s', s2 = "/"%byte :: s') →
  name1 ++ s1 = name2 ++ s2 → name1 = name2.
Proof.
  induction name1 as [|c name1 IH]; intros [|c' name2] s1 s2 H1 H2 Hs1 Hs2 Heq;
    simpl in Heq.
  - done.
  - destruct Hs1 as [->|[s' ->]]; simplify_eq.
    exfalso. apply H2. apply list_elem_of_here.
  - destruct Hs2 as [->|[s' ->]]; simplify_eq.
    exfalso. apply H1. apply list_elem_of_here.
  - simplify_eq. f_equal. apply (IH name2 s1 s2); try done.
    + intros Hin. apply H1. by apply list_elem_of_further.
    + intros Hin. apply H2. by apply list_elem_of_further.
Qed.

Lemma NoDup_fst_unique {A B} (l : list (A * B)) x y1 y2 :
  NoDup l.*1 → (x, y1) ∈ l → (x, y2) ∈ l → y1 = y2.
Proof.
  induction l as [|[a c] l IH]; csimpl; intros Hnd H1 H2.
  - inversion H1.
  - apply NoDup_cons in Hnd as [Hnot Hnd].
    apply elem_of_cons in H1 as [H1|H1]; apply elem_of_cons in H2 as [H2|H2];
      simplify_eq; auto.
    + exfalso. apply Hnot. by apply (list_elem_of_fmap_2 fst _ (a, y2)).
    + exfalso. apply Hnot. by apply (list_elem_of_fmap_2 fst _ (a, y1)).
Qed.

Lemma files_of_NoDup t : ∀ path, well_named t → NoDup (files_of path t).
Proof.
  induction t as [|entries IH] using tree_induction; intros path Hnamed.
  - apply NoDup_singleton.
  - inversion Hnamed as [|? Hnames Hslash Hentries]; subst.
    cbn [files_of]. apply NoDup_bind.
    + intros [name1 t1] [name2 t2] p Hin1 Hin2 Hp1 Hp2.
      apply files_of_below in Hp1 as (s1 & -> & Hs1).
      apply files_of_below in Hp2 as (s2 & Heq & Hs2).
      unfold join in Heq. rewrite <- !app_assoc in Heq.
      apply app_inv_head in Heq. simpl in Heq. simplify_eq.
      assert (name1 = name2) as ->.
      { apply (name_prefix_unique name1 name2 s1 s2); try done.
        - apply (proj1 (Forall_forall _ _) Hslash).
          by apply (list_elem_of_fmap_2 fst _ (name1, t1)).
        - apply (proj1 (Forall_forall _ _) Hslash).
          by apply (list_elem_of_fmap_2 fst _ (name2, t2)). }
      f_equal. by eapply NoDup_fst_unique.
    + intros [name t'] Hin.
      apply (proj1 (Forall_forall _ _) IH (name, t') Hin).
      apply (proj1 (Forall_forall _ _) Hentries (name, t') Hin).
    + by eapply NoDup_fmap_1.
Qed.

(** C9 (crawl completeness): for a tree the file system shows at [root],
    with names as directories give them (distinct, without a slash),
    [crawler] on [root] returns, given fuel above the depth of the tree,
    the paths of the regular files of the tree and nothing else: as many
    as the tree has files, none twice, none a directory, each file of the
    tree among them.  The expansions of the paths given come one after
    the other in the order of the paths. *)
Theorem crawler_complete (fs : filesystem) (root : str) (t : tree) :
  is_tree fs root t → well_named t →
  (∀ fuel, depth t < fuel → crawler fuel fs [root] = Some (files_of root t)) ∧
  length (files_of root t) = count_files t ∧
  NoDup (files_of root t) ∧
  Forall (λ p, isdir fs p = false) (files_of root t) ∧
  (∀ p, p ∈ files_of root t ↔ file_in root t p) ∧
  (∀ fuel paths1 paths2 out1 out2,
     crawler fuel fs paths1 = Some out1 →
     crawler fuel fs paths2 = Some out2 →
     crawler fuel fs (paths1 ++ paths2) = Some (out1 ++ out2)).
Proof.
  intros Htree Hnamed. split.
  { intros fuel Hfuel.
    change [root] with [(root, t)].*1.
    rewrite crawler_forest; [|lia|by repeat constructor].
    simpl. by rewrite app_nil_r. }
  split; [apply files_of_length|].
  split; [by apply files_of_NoDup|].
  split; [by apply files_of_not_dirs|].
  split; [apply files_of_file_in|].
  intros fuel paths1 paths2 out1 out2. apply crawler_app.
Qed.

(** ** The chosen columns *)

Lemma int_digits s : isdigit s = true → ∃ n, int s = inr n.
Proof. unfold int. intros ->. eauto. Qed.

Lemma append_columns_digits tokens : ∀ target_columns,
  forallb isdigit tokens = true →
  ∃ columns,
    append_columns tokens target_columns = inr columns ∧
    length columns = length target_columns + length tokens.
Proof.
  induction tokens as [|col_number rest IH]; intros target_columns Hdigits;
    simpl in *.
  - exists target_columns. split; [done | lia].
  - apply andb_prop in Hdigits as [Hd Hrest].
    destruct (int_digits _ Hd) as [n ->].
    destruct (IH (target_columns ++ [n]) Hrest) as (columns & -> & Hlen).
    exists columns. split; [done|]. rewrite length_app in Hlen. simpl in Hlen. lia.
Qed.

Lemma sorted_ascending target_columns : Sorted (≤) (sorted target_columns).
Proof. apply Sorted_merge_sort. apply _. Qed.

Lemma sorted_permutation target_columns : sorted target_columns ≡ₚ target_columns.
Proof. apply merge_sort_Permutation. Qed.




(** C7, as the code has it: [crypto_init] raises nothing, whatever the
    password, the empty one included: the digest of the password is 16
    bytes long, a length the cipher takes as a key, and the object starts
    at position zero. *)
Theorem crypto_init_never_fails `{Library} (password : str) :
  crypto_init password = inr (mkAES (md5 password) 0) ∧
  length (md5 password) = 16 ∧
  crypto_init [] = inr (mkAES (md5 []) 0).
Proof.
  split; [apply crypto_init_fresh|]. split; [apply md5_digest_size|].
  apply crypto_init_fresh.
Qed.

(** ** The model at work on the example *)

Section ExampleFacts.
Import Example.

(** The rows of [a.csv] after one run with [-c 1 --password pw], and after
    a second one. *)
Example a_csv_there_and_back :
  ∃ rows,
    @file_transform plain (b "pw") true [1] a_rows = inr rows ∧
    rows ≠ a_rows ∧
    (λ row, row !! 0) <$> rows = (λ row, row !! 0) <$> a_rows ∧
    @file_transform plain (b "pw") true [1] rows = inr a_rows.
Proof.
  eexists. split; [vm_compute; reflexivity|].
  split; [by vm_compute|]. split; by vm_compute.
Qed.

Lemma example_is_tree : is_tree fs (b "/d") d_tree.
Proof.
  apply is_tree_dir; [done..|]. repeat constructor.
Qed.

Lemma example_well_named : well_named d_tree.
Proof.
  apply well_named_dir; [by apply (bool_decide_unpack _)..|].
  apply Forall_cons. split; [constructor|].
  apply Forall_cons. split; [|constructor].
  apply well_named_dir; [by apply (bool_decide_unpack _)..|].
  apply Forall_cons. split; constructor.
Qed.

(** The involution on [a.csv], column 1, password [pw]. *)
Lemma file_transform_involution_witness :
  ∃ rows,
    @file_transform plain (b "pw") true [1] a_rows = inr rows ∧
    @file_transform plain (b "pw") true [1] rows = inr a_rows.
Proof.
  apply (@file_transform_involution plain (b "pw") true [1] a_rows).
  intros _. repeat constructor.
Defined.

(** The frame of the first row of [a.csv], column 1. *)
Lemma transform_line_frame_witness :
  ∃ newline enigma',
    @transform_line plain true [1] [b "1"; b "secret1"]
      (mkAES (Plain.md5 (b "pw")) 0) = inr (newline, enigma') ∧
    length newline = 2 ∧
    length <$> newline = [1; 7] ∧
    (true = true → ∀ i, i ∉ [1] → newline !! i = [b "1"; b "secret1"] !! i) ∧
    aes_key enigma' = Plain.md5 (b "pw") ∧
    aes_pos enigma' = 0 + 7.
Proof.
  apply (@transform_line_frame plain true [1] [b "1"; b "secret1"]
           (mkAES (Plain.md5 (b "pw")) 0)).
  intros _. repeat constructor.
Defined.


(** Two files with the rows of [a.csv], in two states: the same content
    is written to both. *)
Lemma per_file_determinism_witness :
  ∃ rows,
    @file_transform plain (b "pw") (truthy (columns opts)) [1] a_rows
      = inr rows ∧
    @crypto_init plain (b "pw") = inr (mkAES (Plain.md5 (b "pw")) 0) ∧
    length (Plain.md5 (b "pw")) = 16 ∧
    ∀ target1 st1 data1 target2 st2 data2,
      contents (st_fs st1) target1 = Some data1 →
      contents (st_fs st2) target2 = Some data2 →
      Plain.csv_reader data1 = (a_rows, false) →
      Plain.csv_reader data2 = (a_rows, false) →
      ∃ st1' st2',
        @process_target plain opts (b "pw") [1] target1 st1 = inr st1' ∧
        @process_target plain opts (b "pw") [1] target2 st2 = inr st2' ∧
        contents (st_fs st1') target1 = Some (Plain.csv_writer rows) ∧
        contents (st_fs st2') target2 = Some (Plain.csv_writer rows).
Proof.
  eexists. split; [vm_compute; reflexivity|].
  apply (@per_file_determinism plain opts (b "pw") [1] a_rows).
  - vm_compute. reflexivity.
  - reflexivity.
Defined.

(** The crawl of [/d]. *)
Lemma crawler_complete_witness :
  (∀ fuel, depth d_tree < fuel →
     crawler fuel fs [b "/d"] = Some (files_of (b "/d") d_tree)) ∧
  length (files_of (b "/d") d_tree) = count_files d_tree ∧
  NoDup (files_of (b "/d") d_tree) ∧
  Forall (λ p, isdir fs p = false) (files_of (b "/d") d_tree) ∧
  (∀ p, p ∈ files_of (b "/d") d_tree ↔ file_in (b "/d") d_tree p) ∧
  (∀ fuel paths1 paths2 out1 out2,
     crawler fuel fs paths1 = Some out1 →
     crawler fuel fs paths2 = Some out2 →
     crawler fuel fs (paths1 ++ paths2) = Some (out1 ++ out2)).
Proof.
  apply (crawler_complete fs (b "/d") d_tree).
  - apply example_is_tree.
  - apply example_well_named.
Defined.



(** Against C7: no hash of 16 bytes and no block function make
    [crypto_init] reject the empty password. *)
Lemma empty_password_is_accepted :
  ¬ ∃ (L : Library) (e : exn), @crypto_init L [] = inl e.
Proof. intros (L & e & Hinit). by rewrite crypto_init_fresh in Hinit. Qed.

(** Against C8: given [/d] and [/d/a.csv], the run reads and rewrites
    [/d/a.csv] twice, which leaves it as it was, and counts three files
    altered. *)
Lemma file_given_twice_is_processed_twice :
  ∃ st,
    @script plain 3 opts_all [b "/d"; b "/d/a.csv"] [] fs
      = Some (Exit ExitOk st) ∧
    reads st = [b "/d/a.csv"; b "/d/sub/b.csv"; b "/d/a.csv"] ∧
    writes st = [b "/d/a.csv"; b "/d/sub/b.csv"; b "/d/a.csv"] ∧
    ¬ NoDup (reads st) ∧
    processed_files st = 3 ∧
    stdout st = [FilesAltered 3] ∧
    contents (st_fs st) (b "/d/a.csv") = contents fs (b "/d/a.csv").
Proof.
  eexists. split; [vm_compute; reflexivity|].
  split; [by vm_compute|]. split; [by vm_compute|]. split; [|by vm_compute].
  vm_compute. intros Hnd. apply NoDup_cons in Hnd as [Hin _].
  apply Hin, list_elem_of_further, list_elem_of_here.
Qed.

(** An empty answer to the prompt is a password like any other: the run
    goes on and rewrites the file. *)
Example empty_password_run :
  ∃ st,
    @script plain 3 opts_ask [b "/d/a.csv"] [] fs = Some (Exit ExitOk st) ∧
    writes st = [b "/d/a.csv"] ∧
    stdout st = [FilesAltered 1].
Proof. eexists. split; [vm_compute; reflexivity|]. by vm_compute. Qed.

End ExampleFacts.

(** * Further properties of the script *)

(** ** One turn of the main loop, case by case *)

Section TurnFacts.
Context `{Library}.

Lemma process_target_turn opts pw target_columns target st :
  turn opts pw target_columns target st
    (process_target opts pw target_columns target st).
Proof.
  destruct (contents (st_fs st) target) as [data|] eqn:Hdata.
  - destruct (csv_reader data) as [lines malformed] eqn:Hread.
    rewrite (process_target_found _ _ _ _ _ _ _ _ Hdata Hread).
    destruct (lines_loop _ _ _ _ _) as [e|[csv_contents used]] eqn:Hloop.
    + apply lines_loop_raises in Hloop as (-> & Hcols & Hbad).
      by eapply turn_out_of_range.
    + cbn zeta. destruct malformed.
      * change (st_fs (set_enigma used (reading opts pw target st)))
          with (st_fs (reading opts pw target st)).
        rewrite reading_fs. by eapply turn_malformed.
      * destruct (not_really opts) eqn:Hdry.
        -- by eapply turn_printed.
        -- by eapply turn_committed.
  - destruct (process_target_missing opts pw target_columns target st Hdata)
      as (st' & Hturn & Hopened & Hfs).
    rewrite Hturn. apply turn_unopened; try done.
    unfold process_target in Hturn. rewrite crypto_init_fresh in Hturn.
    destruct (verbose opts); simpl in Hturn; rewrite Hdata in Hturn;
      by simplify_eq.
Qed.

End TurnFacts.

(** ** What the main loop keeps *)

Section LoopFacts.
Context `{Library}.

#[local] Arguments reading : simpl never.

Lemma counter_print o st : processed_files (print o st) = processed_files st.
Proof. done. Qed.

Lemma counter_set_enigma e st :
  processed_files (set_enigma e st) = processed_files st.
Proof. done. Qed.

Lemma counter_commit target data st :
  processed_files (commit target data st) = S (processed_files st).
Proof. done. Qed.

Lemma fs_print o st : st_fs (print o st) = st_fs st.
Proof. done. Qed.

Lemma fs_set_enigma e st : st_fs (set_enigma e st) = st_fs st.
Proof. done. Qed.


(** The counter moves with the files opened for writing. *)
Lemma turn_counts opts pw target_columns target st r :
  turn opts pw target_columns target st r →
  processed_files (final_state r) + length (writes st) =
  processed_files st + length (writes (final_state r)).
Proof.
  pose proof (reading_processed_files opts pw target st) as Hn.
  pose proof (writes_reading opts pw target st) as Hw.
  destruct 1 as [st' _ _ Hopened Hcount| | | |]; cbn [final_state];
    rewrite ?counter_commit, ?counter_print, ?counter_set_enigma,
      ?writes_commit, ?length_app, ?writes_print, ?writes_set_enigma,
      ?Hw, ?Hn; cbn [length]; try lia.
  unfold writes. rewrite Hopened, Hcount. done.
Qed.

(** With [-n] a turn opens nothing for writing and leaves the file system
    and the counter as they are. *)
Lemma turn_dry opts pw target_columns target st r :
  not_really opts = true →
  turn opts pw target_columns target st r →
  st_fs (final_state r) = st_fs st ∧
  writes (final_state r) = writes st ∧
  processed_files (final_state r) = processed_files st.
Proof.
  intros Hdry.
  pose proof (reading_processed_files opts pw target st) as Hn.
  pose proof (writes_reading opts pw target st) as Hw.
  pose proof (reading_fs opts pw target st) as Hfs.
  destruct 1 as [st' _ Hfs' Hopened Hcount| | | |]; cbn [final_state];
    rewrite ?counter_print, ?counter_set_enigma, ?fs_print, ?fs_set_enigma,
      ?writes_print, ?writes_set_enigma; try done; [|congruence].
  unfold writes. by rewrite Hopened.
Qed.


Lemma main_loop_counts opts pw target_columns targets : ∀ st,
  let r := main_loop opts pw target_columns targets st in
  processed_files (final_state r) + length (writes st) =
  processed_files st + length (writes (final_state r)).
Proof.
  induction targets as [|target rest IH]; intros st; simpl; [lia|].
  pose proof (process_target_turn opts pw target_columns target st) as Hturn.
  apply turn_counts in Hturn.
  destruct (process_target opts pw target_columns target st)
    as [[e1 st1]|st1]; simpl in *; [done|].
  specialize (IH st1). simpl in IH. lia.
Qed.

Lemma main_loop_dry opts pw target_columns targets : ∀ st,
  not_really opts = true →
  let r := main_loop opts pw target_columns targets st in
  st_fs (final_state r) = st_fs st ∧
  writes (final_state r) = writes st ∧
  processed_files (final_state r) = processed_files st.
Proof.
  induction targets as [|target rest IH]; intros st Hdry; simpl; [done|].
  pose proof (process_target_turn opts pw target_columns target st) as Hturn.
  apply turn_dry in Hturn as (Hfs & Hw & Hn); [|done].
  destruct (process_target opts pw target_columns target st)
    as [[e1 st1]|st1]; simpl in *; [done|].
  destruct (IH st1 Hdry) as (Hfs' & Hw' & Hn'). simpl in *.
  repeat split; congruence.
Qed.

(** How [script] comes to its outcome: it leaves before the loop with the
    state untouched, or prints the help, or runs the loop over the crawl
    with the options and password of lines 129-137. *)
Lemma script_cases fuel opts args typed fs outcome :
  script fuel opts args typed fs = Some outcome →
  let st0 := mkState fs None 0 [] [] in
  (∃ status, status ≠ ExitOk ∧ outcome = Exit status st0) ∨
  (help opts = true ∧ outcome = Exit ExitOk (print [LongHelp] st0)) ∨
  ∃ pw target_columns targets,
    help opts = false ∧
    target_columns_of (columns opts) = inr target_columns ∧
    crawler fuel fs (abspath fs <$> args) = Some targets ∧
    outcome =
      match main_loop
              (mkOptions (help opts) (columns opts) (Some pw) (not_really opts)
                 (verbose opts || not_really opts))
              pw target_columns targets st0 with
      | inl (e, st1) => Uncaught e st1
      | inr st1 => summary st1
      end.
Proof.
  unfold script. intros Hrun. cbn zeta.
  destruct (match columns opts with Some _ => _ | None => _ end) eqn:Hcheck.
  { left. exists BadColumnNumber. by simplify_eq. }
  destruct (help opts) eqn:Hhelp.
  { right. left. split; [done|]. by simplify_eq. }
  destruct args as [|arg args].
  { left. exists NoPathsGiven. by simplify_eq. }
  destruct (list_find _ _) as [[i path]|].
  { left. exists (TargetDoesNotExist path). by simplify_eq. }
  right. right. cbn [columns] in Hrun.
  destruct (target_columns_of (columns opts)) as [e|target_columns] eqn:Hcols.
  { exfalso. unfold target_columns_of in Hcols.
    destruct (columns opts) as [value|]; [|done].
    destruct (truthy (Some value)); [|done].
    apply negb_false_iff in Hcheck.
    destruct (append_columns_digits _ [] Hcheck) as (cs & Hcs & _).
    by rewrite Hcs in Hcols. }
  destruct (crawler fuel fs _) as [targets|] eqn:Hcrawl; [|done].
  simpl in Hrun. simplify_eq. eauto 10.
Qed.

End LoopFacts.

(** ** Whole runs *)

Section ScriptFacts.
Context `{Library}.

#[local] Arguments reading : simpl never.


(** With [-n] a run changes no file, opens none for writing, and ends,
    when it gets to the end, on [Nothing done]. *)
Theorem dry_run_changes_nothing (fuel : nat) (opts : options)
    (args : list str) (typed : str) (fs : filesystem) (outcome : outcome) :
  not_really opts = true →
  script fuel opts args typed fs = Some outcome →
  match outcome with
  | Exit status st =>
      st_fs st = fs ∧ writes st = [] ∧
      (status = ExitOk → help opts = false →
       last (stdout st) = Some NothingDone)
  | Uncaught _ st => st_fs st = fs ∧ writes st = []
  end.
Proof.
  intros Hdry Hrun. apply script_cases in Hrun.
  destruct Hrun as [(status & Hstatus & ->)|[[Hhelp ->]|Hrun]].
  - by repeat split.
  - repeat split. congruence.
  - destruct Hrun as (pw & target_columns & targets & _ & _ & _ & ->).
    pose proof (main_loop_dry
                  (mkOptions (help opts) (columns opts) (Some pw)
                     (not_really opts) (verbose opts || not_really opts))
                  pw target_columns targets (mkState fs None 0 [] []) Hdry)
      as (Hfs & Hw & Hn).
    destruct (main_loop _ _ _ _ _) as [[e st1]|st1]; simpl in *; [done|].
    repeat split; try done. intros _ _.
    rewrite Hn. simpl. by rewrite last_snoc.
Qed.

(** The counter the run reports is the number of times a file was opened
    for writing: the last line printed is [Nothing done] when there was
    none, and the number of rewrites otherwise. *)
Theorem summary_counts_rewrites (fuel : nat) (opts : options)
    (args : list str) (typed : str) (fs : filesystem) (st : state) :
  help opts = false →
  script fuel opts args typed fs = Some (Exit ExitOk st) →
  processed_files st = length (writes st) ∧
  last (stdout st) =
    Some (if decide (length (writes st) = 0) then NothingDone
          else FilesAltered (length (writes st))).
Proof.
  intros Hhelp Hrun. apply script_cases in Hrun.
  destruct Hrun as [(status & Hstatus & ?)|[[? _]|Hrun]];
    [by simplify_eq | congruence |].
  destruct Hrun as (pw & target_columns & targets & _ & _ & _ & Hout).
  pose proof (main_loop_counts
                (mkOptions (help opts) (columns opts) (Some pw)
                   (not_really opts) (verbose opts || not_really opts))
                pw target_columns targets (mkState fs None 0 [] [])) as Hn.
  destruct (main_loop _ _ _ _ _) as [[e st1]|st1]; [done|].
  unfold summary in Hout. simplify_eq. simpl in Hn.
  rewrite counter_print, writes_print.
  assert (processed_files st1 = length (writes st1)) as Hcount by lia.
  split; [done|]. simpl. by rewrite last_snoc, Hcount.
Qed.

(** A file the reader gives up on ([csv.Error]) is reported and left as
    it is, the counter does not move, and the loop goes on with the
    targets that follow. *)
Theorem malformed_csv_is_skipped (opts : options) (pw : str)
    (target_columns : list nat) (target : str) (rest : list str) (st : state)
    (data : str) (lines : list (list str)) :
  contents (st_fs st) target = Some data →
  csv_reader data = (lines, true) →
  (truthy (columns opts) = true →
   Forall (λ line, Forall (λ column, column < length line) target_columns)
     lines) →
  ∃ st',
    process_target opts pw target_columns target st = inr st' ∧
    main_loop opts pw target_columns (target :: rest) st =
      main_loop opts pw target_columns rest st' ∧
    st_fs st' = st_fs st ∧
    processed_files st' = processed_files st ∧
    writes st' = writes st ∧
    last (stdout st') = Some (NotValidCsv (abspath (st_fs st) target)).
Proof.
  intros Hdata Hread Hrange. cbn [main_loop].
  rewrite (process_target_found _ _ _ _ _ _ _ _ Hdata Hread).
  destruct (lines_loop_defined (truthy (columns opts)) target_columns lines
              (mkAES (md5 pw) 0) Hrange) as (rows & used & ->).
  cbn zeta. eexists. split; [done|]. split; [done|].
  rewrite fs_print, fs_set_enigma, counter_print, counter_set_enigma,
    writes_print, writes_set_enigma, reading_fs, reading_processed_files,
    writes_reading.
  repeat split; try done. simpl. apply last_snoc.
Qed.

(** A target that cannot be opened ends the run on [IOError]: nothing is
    written and the targets that follow are not touched. *)
Theorem unopenable_target_ends_run (opts : options) (pw : str)
    (target_columns : list nat) (target : str) (rest : list str) (st : state) :
  contents (st_fs st) target = None →
  ∃ st',
    main_loop opts pw target_columns (target :: rest) st = inl (IOError, st') ∧
    st_fs st' = st_fs st ∧ opened st' = opened st ∧
    processed_files st' = processed_files st.
Proof.
  intros Hdata. cbn [main_loop].
  pose proof (process_target_turn opts pw target_columns target st) as Hturn.
  destruct (process_target opts pw target_columns target st)
    as [[e st1]|st1]; inversion Hturn; subst; try congruence.
  by exists st1.
Qed.

(** Two turns of the loop on the same file: when the rows written by the
    first are read back as they were written, the second writes the rows
    the file had at the start; both count as altered files, and no other
    file changes. *)
Theorem second_run_restores (opts : options) (pw : str)
    (target_columns : list nat) (target : str) (st : state) (data : str)
    (lines rows : list (list str)) :
  not_really opts = false →
  contents (st_fs st) target = Some data →
  csv_reader data = (lines, false) →
  file_transform pw (truthy (columns opts)) target_columns lines = inr rows →
  csv_reader (csv_writer rows) = (rows, false) →
  ∃ st1 st2,
    process_target opts pw target_columns target st = inr st1 ∧
    process_target opts pw target_columns target st1 = inr st2 ∧
    contents (st_fs st1) target = Some (csv_writer rows) ∧
    contents (st_fs st2) target = Some (csv_writer lines) ∧
    processed_files st2 = S (S (processed_files st)) ∧
    ∀ p, p ≠ target → contents (st_fs st2) p = contents (st_fs st) p.
Proof.
  intros Hcommit Hdata Hread Hrows Hback.
  unfold file_transform in Hrows. rewrite crypto_init_fresh in Hrows.
  destruct (lines_loop _ _ lines _ _) as [e|[csv_contents used]] eqn:Hloop;
    [done|].
  simplify_eq.
  rewrite (process_target_found _ _ _ _ _ _ _ _ Hdata Hread), Hloop, Hcommit.
  cbn zeta. eexists. eexists. split; [done|].
  set (st1 := commit target (csv_writer rows) _).
  assert (contents (st_fs st1) target = Some (csv_writer rows)) as Hdata1
    by apply contents_commit.
  rewrite (process_target_found _ _ _ _ _ _ _ _ Hdata1 Hback).
  rewrite (lines_loop_involutive _ _ _ _ _ _ Hloop), Hcommit. cbn zeta.
  split; [done|]. split; [done|]. split; [apply contents_commit|].
  split.
  - rewrite counter_commit, counter_set_enigma, reading_processed_files.
    unfold st1.
    by rewrite counter_commit, counter_set_enigma, reading_processed_files.
  - intros p Hp. rewrite contents_commit_other, fs_set_enigma, reading_fs by done.
    unfold st1.
    by rewrite contents_commit_other, fs_set_enigma, reading_fs by done.
Qed.

End ScriptFacts.

(** ** More on the crawler *)

Section CrawlerMore.
Context (fs : filesystem).

Lemma crawler_loop_mono (crawl1 crawl2 : list str → option (list str)) paths :
  (∀ ps out, crawl1 ps = Some out → crawl2 ps = Some out) →
  ∀ unrolled_paths out,
    crawler_loop crawl1 fs paths unrolled_paths = Some out →
    crawler_loop crawl2 fs paths unrolled_paths = Some out.
Proof.
  intros Hcrawl. induction paths as [|path rest IH];
    intros unrolled_paths out Hloop; simpl in *; [done|].
  destruct (isdir fs path); [|by apply IH].
  destruct (crawl1 _) as [ps|] eqn:Hps; [|done].
  rewrite (Hcrawl _ _ Hps). by apply IH.
Qed.

Lemma crawler_more_fuel fuel : ∀ paths out,
  crawler fuel fs paths = Some out → crawler (S fuel) fs paths = Some out.
Proof.
  induction fuel as [|fuel IH]; intros paths out Hcrawl; [done|].
  cbn [crawler] in *. revert Hcrawl. by apply crawler_loop_mono.
Qed.

Lemma crawler_loop_sound (crawl : list str → option (list str)) paths :
  (∀ ps out, crawl ps = Some out → Forall (λ p, isdir fs p = false) out) →
  ∀ out,
    crawler_loop crawl fs paths [] = Some out →
    Forall (λ p, isdir fs p = false) out ∧
    filter (λ p, isdir fs p = false) paths `sublist_of` out.
Proof.
  intros Hcrawl. induction paths as [|path rest IH]; intros out Hloop.
  - simpl in Hloop. by simplify_eq.
  - rewrite crawler_loop_cons in Hloop. rewrite filter_cons.
    destruct (isdir fs path) eqn:Hdir.
    + destruct (crawl _) as [ps|] eqn:Hps; simpl in Hloop; [|done].
      destruct (crawler_loop crawl fs rest []) as [out'|]; simpl in Hloop;
        [|done].
      simplify_eq. destruct (IH out' eq_refl) as [Hout Hsub].
      rewrite decide_False by done. split.
      * apply Forall_app. split; [by eapply Hcrawl | done].
      * by apply sublist_inserts_l.
    + simpl in Hloop.
      destruct (crawler_loop crawl fs rest []) as [out'|]; simpl in Hloop;
        [|done].
      simplify_eq. destruct (IH out' eq_refl) as [Hout Hsub].
      rewrite decide_True by done. split.
      * by constructor.
      * by apply sublist_skip.
Qed.

Lemma crawler_sound fuel : ∀ paths out,
  crawler fuel fs paths = Some out →
  Forall (λ p, isdir fs p = false) out ∧
  filter (λ p, isdir fs p = false) paths `sublist_of` out.
Proof.
  induction fuel as [|fuel IH]; intros paths out Hcrawl; [done|].
  cbn [crawler] in Hcrawl. eapply crawler_loop_sound; [|done].
  intros ps out' Hps. by apply IH in Hps as [? _].
Qed.

(** What [crawler] returns: no directory; the paths given that are no
    directories, unchanged and in the order given, with the content of
    the directories in between; the list given itself when it holds no
    directory.  The result does not depend on the bound on the depth of
    the recursion, once the bound is large enough. *)
Theorem crawler_keeps_files (fuel : nat) (paths out : list str) :
  crawler fuel fs paths = Some out →
  Forall (λ p, isdir fs p = false) out ∧
  filter (λ p, isdir fs p = false) paths `sublist_of` out ∧
  (Forall (λ p, isdir fs p = false) paths → out = paths) ∧
  (∀ fuel', fuel ≤ fuel' → crawler fuel' fs paths = Some out).
Proof.
  intros Hcrawl. destruct (crawler_sound fuel paths out Hcrawl) as [Hout Hsub].
  split; [done|]. split; [done|]. split.
  - intros Hfiles. destruct fuel as [|fuel]; [done|].
    rewrite crawler_files in Hcrawl by done. by simplify_eq.
  - intros fuel' Hle. induction Hle as [|fuel' _ IH]; [done|].
    by apply crawler_more_fuel.
Qed.



End CrawlerMore.

(** ** More on rows and files *)

Section RowsMore.
Context `{Library}.

#[local] Arguments crypto : simpl never.

Lemma Sorted_seq start len : Sorted (≤) (seq start len).
Proof.
  revert start. induction len as [|len IH]; intros start; simpl.
  - constructor.
  - constructor; [apply IH|]. destruct len; constructor. lia.
Qed.

(** The loop over the columns [k, k+1, ...] of the fields not yet
    visited does to them what [map(crypto, ...)] does. *)
Lemma columns_loop_all todo : ∀ done out enigma,
  length done = length out →
  columns_loop (done ++ todo) (seq (length done) (length todo))
    (out ++ todo) enigma =
  inr (out ++ (map_crypto todo enigma).1, (map_crypto todo enigma).2).
Proof.
  induction todo as [|field todo IH]; intros done out enigma Hlen.
  - done.
  - cbn [length seq columns_loop map_crypto].
    rewrite list_lookup_middle by done.
    destruct (crypto field enigma) as [c enigma1].
    rewrite Hlen, (insert_app_r_alt out) by done.
    rewrite Nat.sub_diag. cbn [insert list_insert].
    replace (done ++ field :: todo) with ((done ++ [field]) ++ todo)
      by (by rewrite <- app_assoc).
    replace (out ++ c :: todo) with ((out ++ [c]) ++ todo)
      by (by rewrite <- app_assoc).
    replace (S (length out)) with (length (done ++ [field]))
      by (rewrite length_app; simpl; lia).
    rewrite IH by (rewrite !length_app; simpl; lia).
    destruct (map_crypto todo enigma1) as [cs enigma2]. simpl.
    by rewrite <- app_assoc.
Qed.

(** With every column of the row chosen, in any order, the row is
    transformed as it is when no column is chosen. *)
Theorem every_column_is_no_selection (target_columns ignored : list nat)
    (line : list str) (enigma : AES) :
  target_columns ≡ₚ seq 0 (length line) →
  transform_line true target_columns line enigma =
  transform_line false ignored line enigma.
Proof.
  intros Hperm. unfold transform_line. simpl.
  assert (sorted target_columns = seq 0 (length line)) as ->.
  { apply (Sorted_unique (≤)); [apply sorted_ascending|apply Sorted_seq|].
    by rewrite sorted_permutation. }
  pose proof (columns_loop_all line [] [] enigma eq_refl) as Hall.
  simpl in Hall. rewrite Hall. by destruct (map_crypto line enigma).
Qed.




(** With no column chosen the fields of a row share one stretch of the
    stream: joined end to end, the new fields are what one call of the
    cipher returns on the fields joined end to end. *)
Lemma map_crypto_joined line : ∀ enigma,
  concat (map_crypto line enigma).1 = (AES_process enigma (concat line)).1 ∧
  (map_crypto line enigma).2 = (AES_process enigma (concat line)).2.
Proof.
  induction line as [|field rest IH]; intros enigma.
  - cbn [map_crypto concat fst snd]. by rewrite process_nil.
  - cbn [map_crypto]. unfold crypto.
    destruct (IH (AES_process enigma field).2) as [Hout Hstate].
    change (concat (field :: rest)) with (field ++ concat rest).
    rewrite process_app. cbn [fst snd].
    destruct (AES_process enigma field) as [c enigma1]. cbn [fst snd] in *.
    destruct (map_crypto rest enigma1) as [cs enigma2]. cbn [fst snd] in *.
    split; [|done]. change (concat (c :: cs)) with (c ++ concat cs).
    by rewrite Hout.
Qed.

Lemma lines_loop_joined target_columns lines : ∀ enigma rows enigma',
  lines_loop false target_columns lines [] enigma = inr (rows, enigma') →
  concat (concat rows) = (AES_process enigma (concat (concat lines))).1 ∧
  enigma' = (AES_process enigma (concat (concat lines))).2.
Proof.
  induction lines as [|line rest IH]; intros enigma rows enigma' Hloop.
  - simpl in Hloop. simplify_eq. cbn [concat].
    by rewrite process_nil.
  - rewrite lines_loop_cons in Hloop. unfold transform_line in Hloop.
    simpl in Hloop.
    destruct (map_crypto_joined line enigma) as [Hout Hstate].
    destruct (map_crypto line enigma) as [newline enigma1].
    cbn [fst snd] in *.
    destruct (lines_loop false target_columns rest [] enigma1)
      as [?|[rows1 enigma2]] eqn:Hrest; [done|].
    simplify_eq. apply IH in Hrest as [Hrows ->].
    change (concat (line :: rest)) with (line ++ concat rest).
    change (concat (newline :: rows1)) with (newline ++ concat rows1).
    rewrite !concat_app, process_app. cbn [fst snd].
    by rewrite Hout, Hrows.
Qed.

(** With no column chosen a file is one stream: its fields, taken row
    after row and joined end to end, are combined byte for byte with the
    keystream of the password from position zero on, and each field
    keeps its length (so the bytes fall back into the same fields). *)
Theorem whole_file_is_one_stream (pw : str) (ignored : list nat)
    (lines : list (list str)) :
  ∃ rows,
    file_transform pw false ignored lines = inr rows ∧
    map (map length) rows = map (map length) lines ∧
    concat (concat rows) =
      zip_with xor_byte (concat (concat lines))
        (keystream (md5 pw) 0 (length (concat (concat lines)))).
Proof.
  cbn zeta. unfold file_transform. rewrite crypto_init_fresh.
  destruct (lines_loop_defined false ignored lines (mkAES (md5 pw) 0))
    as (rows & enigma' & Hloop); [done|].
  exists rows. rewrite Hloop. split; [done|].
  split; [|by apply lines_loop_joined in Hloop as [-> _]].
  clear -Hloop. revert rows enigma' Hloop. generalize (mkAES (md5 pw) 0).
  induction lines as [|line rest IH]; intros enigma rows enigma' Hloop.
  - simpl in Hloop. by simplify_eq.
  - rewrite lines_loop_cons in Hloop.
    destruct (transform_line false ignored line enigma)
      as [?|[newline enigma1]] eqn:Hline; [done|].
    destruct (lines_loop false ignored rest [] enigma1)
      as [?|[rows1 enigma2]] eqn:Hrest; [done|].
    simplify_eq. cbn [map]. f_equal.
    + by apply transform_line_lengths in Hline.
    + by eapply IH.
Qed.

End RowsMore.

(** ** The column option, written and read *)

Lemma forallb_eq_true {A} (f : A → bool) (l : list A) :
  Forall (λ x, f x = true) l → forallb f l = true.
Proof. induction 1 as [|x l Hx _ IH]; simpl; [done|]. by rewrite Hx, IH. Qed.

Lemma digit_value d : d < 10 → Byte.to_nat (digit d) = 48 + d.
Proof.
  intros Hd. do 10 (destruct d as [|d]; [reflexivity|]). lia.
Qed.

Lemma digit_is_digit d : d < 10 → is_digit (digit d) = true.
Proof.
  intros Hd. unfold is_digit. apply bool_decide_eq_true.
  rewrite digit_value by done. lia.
Qed.

Lemma digit_no_comma d : d < 10 → digit d ≠ ","%byte.
Proof.
  intros Hd Heq. apply (f_equal Byte.to_nat) in Heq.
  rewrite digit_value in Heq by done. vm_compute in Heq. lia.
Qed.

(** The digits written are digits, at least one, and read back as the
    number. *)
Lemma decimal_digits_spec fuel : ∀ n acc,
  n < fuel →
  ∃ ds,
    decimal_digits fuel n acc = ds ++ acc ∧ ds ≠ [] ∧
    Forall (λ c, is_digit c = true ∧ c ≠ ","%byte) ds ∧
    foldl (λ a c, 10 * a + (Byte.to_nat c - 48)) 0 ds = n.
Proof.
  induction fuel as [|fuel IH]; intros n acc Hn; [lia|].
  cbn [decimal_digits]. case_decide as Hsmall.
  - exists [digit n]. repeat split; [done| |].
    + repeat constructor; [by apply digit_is_digit | by apply digit_no_comma].
    + simpl. rewrite digit_value by done. lia.
  - assert (n `mod` 10 < 10) as Hmod by (apply Nat.mod_upper_bound; lia).
    assert (n `div` 10 < fuel) as Hdiv.
    { pose proof (Nat.div_lt n 10). lia. }
    destruct (IH (n `div` 10) (digit (n `mod` 10) :: acc) Hdiv)
      as (ds & -> & _ & Hds & Hvalue).
    exists (ds ++ [digit (n `mod` 10)]). rewrite <- app_assoc.
    split; [done|]. split; [by destruct ds|]. split.
    + apply Forall_app. split; [done|].
      repeat constructor; [by apply digit_is_digit | by apply digit_no_comma].
    + rewrite foldl_app, Hvalue. cbn [foldl]. rewrite digit_value by done.
      pose proof (Nat.div_mod_eq n 10). lia.
Qed.

Lemma decimal_spec n :
  isdigit (decimal n) = true ∧ int (decimal n) = inr n ∧
  ","%byte ∉ decimal n.
Proof.
  unfold decimal.
  destruct (decimal_digits_spec (S n) n []) as (ds & -> & Hne & Hds & Hvalue);
    [lia|].
  rewrite app_nil_r.
  assert (isdigit ds = true) as Hdigits.
  { unfold isdigit. destruct ds as [|c ds]; [done|].
    apply forallb_eq_true. eapply Forall_impl; [done|]. by intros x [? _]. }
  split; [done|]. split.
  - unfold int. by rewrite Hdigits, Hvalue.
  - intros Hin. by apply (proj1 (Forall_forall _ _) Hds _ Hin).
Qed.

(** [split] finds again the tokens joined with the separator. *)
Lemma split_no_separator sep token :
  sep ∉ token → split sep token = [token].
Proof.
  induction token as [|c token IH]; intros Hsep; [done|]. simpl.
  apply not_elem_of_cons in Hsep as [Hc Hsep].
  rewrite decide_False by done. by rewrite IH.
Qed.

Lemma split_token_then sep token rest :
  sep ∉ token →
  split sep (token ++ sep :: rest) = token :: split sep rest.
Proof.
  induction token as [|c token IH]; intros Hsep; simpl.
  - by rewrite decide_True.
  - apply not_elem_of_cons in Hsep as [Hc Hsep].
    rewrite decide_False by done. by rewrite IH.
Qed.

Lemma split_comma_joined tokens :
  tokens ≠ [] → Forall (λ token, ","%byte ∉ token) tokens →
  split ","%byte (comma_joined tokens) = tokens.
Proof.
  induction tokens as [|token rest IH]; intros Hne Htokens; [done|].
  apply Forall_cons in Htokens as [Htoken Hrest].
  destruct rest as [|token' rest].
  - by apply split_no_separator.
  - change (comma_joined (token :: token' :: rest))
      with (token ++ ","%byte :: comma_joined (token' :: rest)).
    rewrite split_token_then by done. by rewrite IH.
Qed.

Lemma append_columns_decimal columns : ∀ target_columns,
  append_columns (decimal <$> columns) target_columns =
  inr (target_columns ++ columns).
Proof.
  induction columns as [|n columns IH]; intros target_columns; simpl.
  - by rewrite app_nil_r.
  - destruct (decimal_spec n) as (_ & -> & _).
    by rewrite IH, <- app_assoc.
Qed.

(** Column numbers written in decimal with commas in between pass
    [check_columns] and are read into [target_columns] as the numbers
    written, in the order written. *)
Theorem written_columns_are_read (columns : list nat) :
  columns ≠ [] →
  let value := comma_joined (decimal <$> columns) in
  check_columns value = true ∧
  truthy (Some value) = true ∧
  target_columns_of (Some value) = inr columns.
Proof.
  intros Hne. cbn zeta.
  assert (split ","%byte (comma_joined (decimal <$> columns))
          = decimal <$> columns) as Hsplit.
  { apply split_comma_joined; [by destruct columns|].
    apply Forall_fmap, Forall_forall. intros n _. apply decimal_spec. }
  assert (truthy (Some (comma_joined (decimal <$> columns))) = true) as Htrue.
  { destruct columns as [|n columns]; [done|]. rewrite fmap_cons.
    destruct (decimal_spec n) as (Hdigit & _).
    destruct (decimal n) as [|c ds]; [done|].
    by destruct (decimal <$> columns). }
  split; [|split; [done|]].
  - unfold check_columns. rewrite Hsplit.
    apply forallb_eq_true, Forall_fmap, Forall_forall. intros n _.
    apply decimal_spec.
  - unfold target_columns_of. rewrite Htrue, Hsplit.
    apply (append_columns_decimal columns []).
Qed.

(** ** The further properties on the example *)

Section MoreExampleFacts.
Import Example.


Lemma dry_run_changes_nothing_witness :
  ∃ st,
    @script plain 3 opts_dry [b "/d"] [] fs = Some (Exit ExitOk st) ∧
    st_fs st = fs ∧ writes st = [] ∧
    (ExitOk = ExitOk → help opts_dry = false →
     last (stdout st) = Some NothingDone).
Proof.
  assert (@script plain 3 opts_dry [b "/d"] [] fs = Some (Exit ExitOk _))
    as Hrun by (vm_compute; reflexivity).
  eexists. split; [exact Hrun|].
  exact (@dry_run_changes_nothing plain 3 opts_dry [b "/d"] [] fs _
           eq_refl Hrun).
Defined.

Lemma summary_counts_rewrites_witness :
  ∃ st,
    @script plain 3 opts_all [b "/d"] [] fs = Some (Exit ExitOk st) ∧
    processed_files st = length (writes st) ∧
    last (stdout st) =
      Some (if decide (length (writes st) = 0) then NothingDone
            else FilesAltered (length (writes st))).
Proof.
  assert (@script plain 3 opts_all [b "/d"] [] fs = Some (Exit ExitOk _))
    as Hrun by (vm_compute; reflexivity).
  eexists. split; [exact Hrun|].
  exact (@summary_counts_rewrites plain 3 opts_all [b "/d"] [] fs _
           eq_refl Hrun).
Defined.

Lemma malformed_csv_is_skipped_witness :
  ∃ st',
    @process_target plain opts_all (b "pw") [] (b "/bad.csv")
      (mkState bad_fs None 0 [] []) = inr st' ∧
    @main_loop plain opts_all (b "pw") [] [b "/bad.csv"; b "/d/a.csv"]
      (mkState bad_fs None 0 [] []) =
      @main_loop plain opts_all (b "pw") [] [b "/d/a.csv"] st' ∧
    st_fs st' = bad_fs ∧
    processed_files st' = 0 ∧
    writes st' = [] ∧
    last (stdout st') = Some (NotValidCsv (b "/bad.csv")).
Proof.
  apply (@malformed_csv_is_skipped plain opts_all (b "pw") [] (b "/bad.csv")
           [b "/d/a.csv"] (mkState bad_fs None 0 [] []) bad_data [[b "a"; b "b"]]).
  - reflexivity.
  - vm_compute. reflexivity.
  - intros Hcolumns. discriminate Hcolumns.
Defined.

Lemma unopenable_target_ends_run_witness :
  ∃ st',
    @main_loop plain opts_all (b "pw") [] [b "/missing"; b "/d/a.csv"] start
      = inl (IOError, st') ∧
    st_fs st' = st_fs start ∧ opened st' = opened start ∧
    processed_files st' = processed_files start.
Proof.
  apply (@unopenable_target_ends_run plain opts_all (b "pw") []
           (b "/missing") [b "/d/a.csv"] start).
  reflexivity.
Defined.

Lemma second_run_restores_witness :
  ∃ rows st1 st2,
    @file_transform plain (b "pw") true [1] a_rows = inr rows ∧
    @process_target plain opts (b "pw") [1] (b "/d/a.csv") start = inr st1 ∧
    @process_target plain opts (b "pw") [1] (b "/d/a.csv") st1 = inr st2 ∧
    contents (st_fs st1) (b "/d/a.csv") = Some (Plain.csv_writer rows) ∧
    contents (st_fs st2) (b "/d/a.csv") = Some (Plain.csv_writer a_rows) ∧
    processed_files st2 = S (S (processed_files start)) ∧
    ∀ p, p ≠ b "/d/a.csv" → contents (st_fs st2) p = contents (st_fs start) p.
Proof.
  eexists.
  assert (@file_transform plain (b "pw") true [1] a_rows = inr _) as Hrows
    by (vm_compute; reflexivity).
  destruct (@second_run_restores plain opts (b "pw") [1] (b "/d/a.csv") start
              (Plain.csv_writer a_rows) a_rows _ eq_refl eq_refl eq_refl Hrows)
    as (st1 & st2 & Hrun); [vm_compute; reflexivity|].
  exists st1, st2. split; [exact Hrows | exact Hrun].
Defined.

Lemma crawler_keeps_files_witness :
  ∃ out,
    crawler 3 fs [b "/short.csv"; b "/d"] = Some out ∧
    Forall (λ p, isdir fs p = false) out ∧
    filter (λ p, isdir fs p = false) [b "/short.csv"; b "/d"]
      `sublist_of` out ∧
    (Forall (λ p, isdir fs p = false) [b "/short.csv"; b "/d"] →
     out = [b "/short.csv"; b "/d"]) ∧
    (∀ fuel', 3 ≤ fuel' →
       crawler fuel' fs [b "/short.csv"; b "/d"] = Some out).
Proof.
  assert (crawler 3 fs [b "/short.csv"; b "/d"] = Some _) as Hcrawl
    by (vm_compute; reflexivity).
  eexists. split; [exact Hcrawl|].
  exact (crawler_keeps_files fs 3 [b "/short.csv"; b "/d"] _ Hcrawl).
Defined.


Lemma every_column_is_no_selection_witness :
  @transform_line plain true [1; 0] [b "1"; b "secret1"]
    (mkAES (Plain.md5 (b "pw")) 0) =
  @transform_line plain false [1; 0] [b "1"; b "secret1"]
    (mkAES (Plain.md5 (b "pw")) 0).
Proof.
  apply (@every_column_is_no_selection plain [1; 0] [1; 0]
           [b "1"; b "secret1"] (mkAES (Plain.md5 (b "pw")) 0)).
  apply Permutation_swap.
Defined.


Lemma written_columns_are_read_witness :
  check_columns (comma_joined (decimal <$> [0; 1; 3; 6; 9])) = true ∧
  truthy (Some (comma_joined (decimal <$> [0; 1; 3; 6; 9]))) = true ∧
  target_columns_of (Some (comma_joined (decimal <$> [0; 1; 3; 6; 9])))
    = inr [0; 1; 3; 6; 9].
Proof. apply (written_columns_are_read [0; 1; 3; 6; 9]). discriminate. Defined.

(** What is written for [0, 1, 3, 6, 9] is the value of the help text. *)
Example help_text_columns :
  comma_joined (decimal <$> [0; 1; 3; 6; 9]) = b "0,1,3,6,9".
Proof. reflexivity. Qed.

End MoreExampleFacts.
